(** * Hyperlocale_News_AI: the PDF scraper of [Scrapper/RAG_Scrapper.py]

    A shallow embedding of [PDFNewsScraper]: the breadth-first discovery of
    PDF links, the text normalisation passes and the top-level
    [scrape_website], followed by the properties the specification states
    about them.

    Python values are modelled as follows.
    - [int] is [Z] (unbounded).
    - [str] is a list of Unicode code points, [list N].
    - a [set] of strings is a list used through membership only.
    - the [deque] is a list: [popleft] takes the head, [append] adds at
      the end. *)

From Stdlib Require Import String Ascii DecimalString.
From Stdlib Require Import List ZArith NArith Lia Bool Sorted.
Import ListNotations.

Local Open Scope Z_scope.

(** ** Python strings *)

Definition pystr := list N.

Fixpoint str_eqb (a b : pystr) : bool :=
  match a, b with
  | [], [] => true
  | x :: a', y :: b' => N.eqb x y && str_eqb a' b'
  | _, _ => false
  end.

(** [x in s] for a set (or list) of strings. *)
Definition mem (x : pystr) (s : list pystr) : bool := existsb (str_eqb x) s.

Fixpoint startswith (p s : pystr) : bool :=
  match p, s with
  | [], _ => true
  | x :: p', y :: s' => N.eqb x y && startswith p' s'
  | _ :: _, [] => false
  end.

(** [p in s] for strings: [p] occurs in [s] as a contiguous substring. *)
Fixpoint contains (p s : pystr) : bool :=
  startswith p s ||
  match s with
  | [] => false
  | _ :: s' => contains p s'
  end.

(** A string literal as a Python string (code points below 256). *)
Definition py (s : string) : pystr :=
  map N_of_ascii (list_ascii_of_string s).

(** The slice [l[:n]]: the first [n] elements when [n >= 0]; for a
    negative [n] Python counts from the end, so all but the last [-n]. *)
Definition slice_to {A : Type} (n : Z) (l : list A) : list A :=
  if 0 <=? n then firstn (Z.to_nat n) l
  else firstn (length l - Z.to_nat (- n)) l.

(** ** The crawler: [_discover_pdf_links] *)

Module Crawler.

Definition url := pystr.

(** What the crawl does, in the order it does it. *)
Inductive event : Type :=
| Skipped (u : url) (d : Z)
    (* (u, d) was dequeued and dropped by [continue] *)
| FetchedPdfs (u : url) (d : Z)
    (* [_extract_pdf_links(u, session)] was called for the page (u, d) *)
| FetchedLinks (u : url) (d : Z)
    (* [session.get(u)] was issued to expand the page (u, d) *)
| Enqueued (from : url) (l : url) (d : Z).
    (* [queue.append((l, d))] while expanding the page [from] *)

Record crawl_state : Type := mk_state {
  visited : list url;
  pdf_links : list url;
  seen_pdfs : list url;
  queue : list (url * Z);
  trace : list event
}.

(** The pages popped from the queue, and those among them that were
    processed, in chronological order. *)
Definition dequeued (tr : list event) : list (url * Z) :=
  flat_map (fun e => match e with
                     | Skipped u d | FetchedPdfs u d => [(u, d)]
                     | _ => []
                     end) tr.

Definition processed (tr : list event) : list (url * Z) :=
  flat_map (fun e => match e with
                     | FetchedPdfs u d => [(u, d)]
                     | _ => []
                     end) tr.

Definition expanded (tr : list event) : list (url * Z) :=
  flat_map (fun e => match e with
                     | FetchedLinks u d => [(u, d)]
                     | _ => []
                     end) tr.

(** The distinct elements of a list, each at its first occurrence. *)
Fixpoint first_occurrences (l : list url) : list url :=
  match l with
  | [] => []
  | x :: r => x :: filter (fun y => negb (str_eqb x y)) (first_occurrences r)
  end.

Section Crawl.

(** The scraper's configuration. *)
Variable max_depth : Z.
Variable num_pdfs : Z.

(** The web, as the crawl observes it.  [pdfs_of u] is the set returned by
    [_extract_pdf_links(u, session)], in the order the [for] loop iterates
    over it (empty when the request failed).  [links_of u] lists the values
    [urljoin(u, a["href"])] the expansion loop iterates over, up to the end
    of the page or to the first exception (empty when the request itself
    failed). *)
Variable pdfs_of : url -> list url.
Variable links_of : url -> list url.

(** The body of the loop over the PDF links of a page. *)
Definition note_pdf (acc : list url * list url) (link : url)
  : list url * list url :=
  let '(seen, links) := acc in
  if mem link seen then acc else (link :: seen, links ++ [link]).

(** The links of page [u] that the expansion loop appends to the queue. *)
Definition internal_links (base_url : url) (vis : list url) (u : url)
  : list url :=
  filter (fun link => contains base_url link && negb (mem link vis))
         (links_of u).

(** One iteration of the [while queue] loop. *)
Definition step (base_url : url) (st : crawl_state) : crawl_state :=
  match queue st with
  | [] => st
  | (u, depth) :: q =>
    if mem u (visited st) || (depth >? max_depth) then
      mk_state (visited st) (pdf_links st) (seen_pdfs st) q
               (trace st ++ [Skipped u depth])
    else
      let vis := u :: visited st in
      let '(seen, links) :=
        fold_left note_pdf (pdfs_of u) (seen_pdfs st, pdf_links st) in
      if depth <? max_depth then
        let new := internal_links base_url vis u in
        mk_state vis links seen
                 (q ++ map (fun l => (l, depth + 1)) new)
                 (trace st ++ FetchedPdfs u depth :: FetchedLinks u depth
                           :: map (fun l => Enqueued u l (depth + 1)) new)
      else
        mk_state vis links seen q (trace st ++ [FetchedPdfs u depth])
  end.

(** The four ways one iteration of the loop can go. *)
Inductive step_case (base_url : url) (st : crawl_state)
  : crawl_state -> Prop :=
| step_empty : queue st = [] -> step_case base_url st st
| step_skip u d q :
    queue st = (u, d) :: q ->
    In u (visited st) \/ d > max_depth ->
    step_case base_url st (mk_state (visited st) (pdf_links st) (seen_pdfs st) q
                           (trace st ++ [Skipped u d]))
| step_expand u d q seen links :
    queue st = (u, d) :: q ->
    ~ In u (visited st) -> d < max_depth ->
    fold_left note_pdf (pdfs_of u) (seen_pdfs st, pdf_links st) = (seen, links) ->
    let new := internal_links base_url (u :: visited st) u in
    step_case base_url st (mk_state (u :: visited st) links seen
                           (q ++ map (fun l => (l, d + 1)) new)
                           (trace st ++ FetchedPdfs u d :: FetchedLinks u d
                              :: map (fun l => Enqueued u l (d + 1)) new))
| step_leaf u d q seen links :
    queue st = (u, d) :: q ->
    ~ In u (visited st) -> d = max_depth ->
    fold_left note_pdf (pdfs_of u) (seen_pdfs st, pdf_links st) = (seen, links) ->
    step_case base_url st (mk_state (u :: visited st) links seen q
                           (trace st ++ [FetchedPdfs u d])).

Fixpoint run (base_url : url) (fuel : nat) (st : crawl_state) : crawl_state :=
  match fuel with
  | O => st
  | S fuel' =>
    match queue st with
    | [] => st
    | _ :: _ => run base_url fuel' (step base_url st)
    end
  end.

Definition init (base_url : url) : crawl_state :=
  mk_state [] [] [] [(base_url, 0)] [].

(** A bound on the number of iterations: the size of the tree of pages
    that would be unfolded from a queue entry if nothing were filtered. *)
Fixpoint visit_cost (levels : nat) (u : url) : nat :=
  S (match levels with
     | O => 0
     | S levels' => list_sum (map (visit_cost levels') (links_of u))
     end).

Definition entry_cost (e : url * Z) : nat :=
  if snd e >? max_depth then 1%nat
  else visit_cost (Z.to_nat (max_depth - snd e)) (fst e).

Definition queue_cost (q : list (url * Z)) : nat :=
  list_sum (map entry_cost q).

(** The state when the [while] loop exits. *)
Definition crawl (base_url : url) : crawl_state :=
  run base_url (queue_cost [(base_url, 0)]) (init base_url).

Definition _discover_pdf_links (base_url : url) : list url :=
  slice_to num_pdfs (pdf_links (crawl base_url)).

(** Invariant of the loop: the depths at which the crawl acts. *)
Definition depth_ok (tr : list event) : Prop :=
  forall e, In e tr ->
    match e with
    | Skipped _ _ => True
    | FetchedPdfs _ d => d <= max_depth
    | FetchedLinks _ d => d < max_depth
    | Enqueued from _ d' =>
        exists d, d' = d + 1 /\ d < max_depth /\ In (FetchedLinks from d) tr
    end.

(** Every PDF link sighted by the crawl, in the order of sighting. *)
Definition sightings (tr : list event) : list url :=
  flat_map pdfs_of (map fst (processed tr)).

(** Invariant of the loop: the visited set is the set of fetched pages. *)
Definition visited_ok (st : crawl_state) : Prop :=
  visited st = rev (map fst (processed (trace st))) /\
  NoDup (map fst (processed (trace st))) /\
  NoDup (map fst (expanded (trace st))) /\
  (forall u, In u (map fst (expanded (trace st))) -> In u (visited st)).

(** Invariant of the loop: history and queue are ordered by depth. *)
Definition bfs_ok (st : crawl_state) : Prop :=
  let waiting := map snd (queue st) in
  StronglySorted Z.le (map snd (dequeued (trace st)) ++ waiting) /\
  StronglySorted Z.le (map snd (processed (trace st)) ++ waiting) /\
  (forall d d', In d waiting -> In d' waiting -> d' <= d + 1).

(** Invariant of the loop: [pdf_links] lists the sightings, once each. *)
Definition pdfs_ok (st : crawl_state) : Prop :=
  pdf_links st = first_occurrences (sightings (trace st)) /\
  (forall x, In x (seen_pdfs st) <-> In x (pdf_links st)).

End Crawl.

(** A small site for examples: the start page links to two pages and
    shows two PDFs; the first inner page shows one of them again and a
    third one, and links back to the start page. *)
Definition site : url := py "http://n.in/".
Definition page1 : url := py "http://n.in/1".
Definition page2 : url := py "http://n.in/2".
Definition pdf_a : url := py "http://n.in/a.pdf".
Definition pdf_b : url := py "http://n.in/b.pdf".
Definition pdf_c : url := py "http://n.in/c.pdf".

Definition demo_pdfs (u : url) : list url :=
  if str_eqb u site then [pdf_a; pdf_b]
  else if str_eqb u page1 then [pdf_b; pdf_c]
  else [].

Definition demo_links (u : url) : list url :=
  if str_eqb u site then [page1; page2; py "http://other.org/"; page1]
  else if str_eqb u page1 then [site; page2]
  else [].

Section Reachability.

Variable max_depth : Z.
Variable pdfs_of : url -> list url.
Variable links_of : url -> list url.
Variable base_url : url.

(** [reach n u]: page [u] is [n] links away from the start page, along
    links whose target contains [base_url]. *)
Inductive reach : Z -> url -> Prop :=
| reach_start : reach 0 base_url
| reach_link n u l :
    reach n u -> In l (links_of u) -> contains base_url l = true ->
    reach (n + 1) l.

(** Invariant of the loop: whatever waits in the queue or was taken from
    it is that many links away from the start page. *)
Definition reach_ok (st : crawl_state) : Prop :=
  (forall u d, In (u, d) (queue st) -> reach d u) /\
  (forall u d, In (u, d) (dequeued (trace st)) -> reach d u).

(** Invariant of the loop: the start page and the internal links of
    every page processed above the depth limit are processed, no deeper
    than one level below that page, or still wait in the queue. *)
Definition complete_ok (st : crawl_state) : Prop :=
  (0 <= max_depth ->
   In (base_url, 0) (processed (trace st)) \/ st = init base_url) /\
  (forall u d, In (u, d) (processed (trace st)) -> d < max_depth ->
   forall l, In l (links_of u) -> contains base_url l = true ->
     (exists d', d' <= d + 1 /\ In (l, d') (processed (trace st))) \/
     In (l, d + 1) (queue st)).

End Reachability.

End Crawler.

(** ** Regular expressions, as the [re] module matches them *)

Module Regex.

(** The Unicode character data consulted by [str] methods and by [re].
    - [isspace]: white space, for [str.strip], [str.split] and [\s];
    - [isalnum]: alphanumeric, so that [\w] is [isalnum] or an underscore;
    - [isdecimal]: decimal digit, for [\d];
    - [isupper], [islower], [istitle]: the case of a character, for
      [str.isupper];
    - [ci_match c ch]: under [re.IGNORECASE], the pattern character [c]
      matches the text character [ch]. *)
Record unicode_data : Type := {
  isspace : N -> bool;
  isalnum : N -> bool;
  isdecimal : N -> bool;
  isupper : N -> bool;
  islower : N -> bool;
  istitle : N -> bool;
  ci_match : N -> N -> bool
}.

Inductive regex : Type :=
| Eps
| Chr (p : N -> bool)
| Seq (r1 r2 : regex)
| Alt (r1 r2 : regex)
| Rep (greedy : bool) (lo : nat) (hi : option nat) (r : regex)
| Group (i : nat) (r : regex).

(** The text captured by each group, most recent binding first. *)
Definition captures := list (nat * pystr).

Definition group (i : nat) (caps : captures) : pystr :=
  match find (fun b => Nat.eqb (fst b) i) caps with
  | Some b => snd b
  | None => []
  end.

(** A matcher lists the ways of matching at the start of the text, each
    with the captures and the text left over, in the order in which the
    backtracking engine tries them. *)
Definition matcher := captures -> pystr -> list (captures * pystr).

(** The [lo] mandatory iterations of a repetition, followed by [rest]. *)
Fixpoint rep_min (m : matcher) (lo : nat) (rest : matcher) : matcher :=
  fun caps s =>
    match lo with
    | O => rest caps s
    | S lo' => flat_map (fun cs => rep_min m lo' rest (fst cs) (snd cs)) (m caps s)
    end.

(** Up to [n] optional iterations.  An iteration that consumes nothing is
    not taken: the engine stops a repetition that makes no progress. *)
Fixpoint rep_opt (m : matcher) (greedy : bool) (n : nat) : matcher :=
  fun caps s =>
    match n with
    | O => [(caps, s)]
    | S n' =>
      let more :=
        flat_map (fun cs =>
                    if (length (snd cs) <? length s)%nat
                    then rep_opt m greedy n' (fst cs) (snd cs)
                    else [])
                 (m caps s) in
      if greedy then more ++ [(caps, s)] else (caps, s) :: more
    end.

Fixpoint rmatch (r : regex) : matcher :=
  fun caps s =>
    match r with
    | Eps => [(caps, s)]
    | Chr p =>
      match s with
      | c :: s' => if p c then [(caps, s')] else []
      | [] => []
      end
    | Seq r1 r2 =>
      flat_map (fun cs => rmatch r2 (fst cs) (snd cs)) (rmatch r1 caps s)
    | Alt r1 r2 => rmatch r1 caps s ++ rmatch r2 caps s
    | Rep greedy lo hi r' =>
      rep_min (rmatch r') lo
              (fun caps1 s1 =>
                 rep_opt (rmatch r') greedy
                         (match hi with
                          | Some h => h - lo
                          | None => length s1
                          end) caps1 s1)
              caps s
    | Group i r' =>
      map (fun cs => ((i, firstn (length s - length (snd cs)) s) :: fst cs, snd cs))
          (rmatch r' caps s)
    end.

(** The match the engine reports at the start of [s]: the first one in
    backtracking order; when [must_advance] is set, the first one that is
    not empty. *)
Definition first_match (r : regex) (must_advance : bool) (s : pystr)
  : option (captures * pystr) :=
  find (fun cs => negb must_advance || (length (snd cs) <? length s)%nat)
       (rmatch r [] s).

(** [re.sub(r, repl, s)]: the text from the current position on, after
    [skip] characters that belong to the match just replaced.  The scan
    replaces the leftmost match, resumes after it and never looks back; an
    empty match is replaced too, and the search then resumes at the same
    position for a match that is not empty. *)
Fixpoint sub_from (r : regex) (repl : captures -> pystr) (s : pystr)
  (skip : nat) : pystr :=
  match s with
  | [] =>
    match skip with
    | O => match first_match r false [] with
           | Some cs => repl (fst cs)
           | None => []
           end
    | S _ => []
    end
  | c :: s' =>
    match skip with
    | S k => sub_from r repl s' k
    | O =>
      match first_match r false s with
      | None => c :: sub_from r repl s' 0
      | Some cs =>
        repl (fst cs) ++
        match (length s - length (snd cs))%nat with
        | S k => sub_from r repl s' k
        | O =>
          match first_match r true s with
          | Some cs' =>
            repl (fst cs') ++
            sub_from r repl s' (length s - length (snd cs') - 1)
          | None => c :: sub_from r repl s' 0
          end
        end
      end
    end
  end.

Definition re_sub (r : regex) (repl : captures -> pystr) (s : pystr) : pystr :=
  sub_from r repl s 0.

(** Every character class of [r] lies within the class [q]. *)
Fixpoint classes_within (q : N -> bool) (r : regex) : Prop :=
  match r with
  | Eps => True
  | Chr p => forall c, p c = true -> q c = true
  | Seq r1 r2 | Alt r1 r2 => classes_within q r1 /\ classes_within q r2
  | Rep _ _ _ r' | Group _ r' => classes_within q r'
  end.

(** A syntactic test: every match of [r] consumes a character. *)
Fixpoint consumes (r : regex) : bool :=
  match r with
  | Eps => false
  | Chr _ => true
  | Seq r1 r2 => consumes r1 || consumes r2
  | Alt r1 r2 => consumes r1 && consumes r2
  | Rep _ lo _ r' => (0 <? lo)%nat && consumes r'
  | Group _ r' => consumes r'
  end.

(** What a matcher may return: a split of the text into a matched part,
    made of characters of the class [q], and the text left over. *)
Definition sound (q : N -> bool) (m : matcher) : Prop :=
  forall caps s caps' rest,
    In (caps', rest) (m caps s) ->
    exists x, s = x ++ rest /\ Forall (fun c => q c = true) x.

Definition progresses (m : matcher) : Prop :=
  forall caps s caps' rest,
    In (caps', rest) (m caps s) -> (length rest < length s)%nat.

(** A matcher that records no group. *)
Definition keeps_captures (m : matcher) : Prop :=
  forall caps s caps' rest, In (caps', rest) (m caps s) -> caps' = caps.

(** Pattern syntax. *)
Definition lit (c : N) : regex := Chr (N.eqb c).
Definition plus (r : regex) : regex := Rep true 1 None r.
Definition star_lazy (r : regex) : regex := Rep false 0 None r.
Definition opt (r : regex) : regex := Rep true 0 (Some 1%nat) r.
Definition at_least (n : nat) (r : regex) : regex := Rep true n None r.
Definition between (lo hi : nat) (r : regex) : regex := Rep true lo (Some hi) r.

Fixpoint seq_of (rs : list regex) : regex :=
  match rs with
  | [] => Eps
  | [r] => r
  | r :: rs' => Seq r (seq_of rs')
  end.

Definition in_range (lo hi c : N) : bool := (N.leb lo c && N.leb c hi)%bool.

Section Classes.

Variable U : unicode_data.

(** [\w], [\d] and [\s]. *)
Definition word_char (c : N) : bool := isalnum U c || N.eqb c 95.
Definition digit_char (c : N) : bool := isdecimal U c.
Definition space_char (c : N) : bool := isspace U c.

(** Patterns compiled with [re.IGNORECASE].  A letter of the pattern
    matches through [ci_match]; a character without case (a digit, a
    space, punctuation) stays an exact literal. *)
Definition lit_i (c : N) : regex := Chr (ci_match U c).

Definition is_ascii_letter (c : N) : bool :=
  in_range 65 90 c || in_range 97 122 c.

Definition str_i (s : string) : regex :=
  seq_of (map (fun c => if is_ascii_letter c then lit_i c else lit c) (py s)).

(** A range of letters [[lo-hi]] under [re.IGNORECASE]: some letter of
    the range matches the character. *)
Definition range_i (lo hi : N) (ch : N) : bool :=
  existsb (fun k => ci_match U (lo + N.of_nat k) ch)
          (seq 0 (S (N.to_nat (hi - lo)))).

End Classes.

(** The character data of the ASCII range, for examples on ASCII texts;
    code points from 128 on are left unclassified. *)
Definition ascii_lower (c : N) : N :=
  if in_range 65 90 c then (c + 32)%N else c.

Definition ascii_data : unicode_data := {|
  isspace := fun c => in_range 9 13 c || in_range 28 32 c;
  isalnum := fun c => in_range 48 57 c || in_range 65 90 c || in_range 97 122 c;
  isdecimal := in_range 48 57;
  isupper := in_range 65 90;
  islower := in_range 97 122;
  istitle := fun _ => false;
  ci_match := fun c ch => N.eqb (ascii_lower c) (ascii_lower ch)
|}.

End Regex.

(** ** Text reconstruction: [_normalize_text] and [_filter_content] *)

Module Text.
Import Regex.

Definition is_empty (s : pystr) : bool :=
  match s with [] => true | _ :: _ => false end.

(** [s.split(sep)] for a separator of one character. *)
Fixpoint split_on (sep : N) (s : pystr) : list pystr :=
  match s with
  | [] => [[]]
  | c :: s' =>
    if N.eqb c sep then [] :: split_on sep s'
    else match split_on sep s' with
         | piece :: pieces => (c :: piece) :: pieces
         | [] => [[c]]
         end
  end.

(** [sep.join(pieces)]. *)
Fixpoint join (sep : pystr) (pieces : list pystr) : pystr :=
  match pieces with
  | [] => []
  | [x] => x
  | x :: rest => x ++ sep ++ join sep rest
  end.

(** [enumerate(l)]. *)
Definition enumerate {A : Type} (l : list A) : list (nat * A) :=
  combine (seq 0 (length l)) l.

Fixpoint drop_while (p : N -> bool) (s : pystr) : pystr :=
  match s with
  | [] => []
  | c :: s' => if p c then drop_while p s' else s
  end.

(** The number of leading characters of class [p]. *)
Definition run_length (p : N -> bool) (s : pystr) : nat :=
  length s - length (drop_while p s).

(** No run of characters of class [p] in [s] is longer than [bound]. *)
Fixpoint runs_le (p : N -> bool) (bound : nat) (s : pystr) : Prop :=
  match s with
  | [] => True
  | _ :: s' => (run_length p s <= bound)%nat /\ runs_le p bound s'
  end.

(** The first character, if any. *)
Definition first_char (s : pystr) : option N := hd_error s.

Section Passes.

Variable U : unicode_data.

(** [s.strip()]. *)
Definition lstrip (s : pystr) : pystr := drop_while (isspace U) s.
Definition rstrip (s : pystr) : pystr := rev (drop_while (isspace U) (rev s)).
Definition strip (s : pystr) : pystr := rstrip (lstrip s).

(** [s.split()]: the maximal runs of characters that are not white
    space.  [cur] is the run being read. *)
Fixpoint split_ws (cur : pystr) (s : pystr) : list pystr :=
  match s with
  | [] => if is_empty cur then [] else [cur]
  | c :: s' =>
    if isspace U c
    then (if is_empty cur then [] else [cur]) ++ split_ws [] s'
    else split_ws (cur ++ [c]) s'
  end.

Definition words (s : pystr) : list pystr := split_ws [] s.

(** The words of a list of strings, in order. *)
Definition flat_words (ls : list pystr) : list pystr :=
  concat (map words ls).

(** Two texts that [split] reads alike after any unfinished word. *)
Definition ws_equiv (x y : pystr) : Prop :=
  forall cur, split_ws cur x = split_ws cur y.

(** [s.isupper()]: no lowercase or titlecase character, and at least one
    uppercase character. *)
Fixpoint isupper_scan (s : pystr) (cased : bool) : bool :=
  match s with
  | [] => cased
  | c :: s' =>
    if islower U c || istitle U c then false
    else isupper_scan s' (cased || isupper U c)
  end.

Definition str_isupper (s : pystr) : bool :=
  match s with
  | [] => false
  | [c] => isupper U c
  | _ => isupper_scan s false
  end.

(** The pattern [(\w+)-\n(\w+)] and the template [\1\2]. *)
Definition hyphen_break : regex :=
  seq_of [Group 1 (plus (Chr (word_char U))); lit 45; lit 10;
          Group 2 (plus (Chr (word_char U)))].

Definition both_fragments (caps : captures) : pystr :=
  group 1 caps ++ group 2 caps.

Definition dehyphenate (text : pystr) : pystr :=
  re_sub hyphen_break both_fragments text.

(** [joined s t]: [t] is [s] without some of its pairs of a hyphen and a
    line feed, each of them between two runs of word characters. *)
Inductive joined : pystr -> pystr -> Prop :=
| joined_nil : joined [] []
| joined_keep c s t : joined s t -> joined (c :: s) (c :: t)
| joined_break x1 x2 s t :
    x1 <> [] -> x2 <> [] ->
    Forall (fun c => word_char U c = true) x1 ->
    Forall (fun c => word_char U c = true) x2 ->
    joined s t ->
    joined (x1 ++ [45; 10]%N ++ x2 ++ s) (x1 ++ x2 ++ t).

(** Neither a hyphen nor a line feed. *)
Definition not_break_char (c : N) : bool :=
  negb (N.eqb c 45) && negb (N.eqb c 10).

(** [re.search] for one of the characters . ! ? : ; and the two quote
    marks, followed by [$], on a line without line break: the last
    character is one of the seven. *)
Definition ends_with_punct (line : pystr) : bool :=
  match rev line with
  | [] => false
  | c :: _ => existsb (N.eqb c) [46; 33; 63; 58; 59; 34; 39]%N
  end.

(** The test for headers and titles, for the stripped line of index [i]. *)
Definition is_header (lines : list pystr) (i : nat) (line : pystr) : bool :=
  (length line <? 20)%nat &&
  (str_isupper line ||
   (str_isupper (firstn 1 line) && (0 <? i)%nat &&
    is_empty (strip (nth (i - 1) lines [])))).

(** [if buffer: normalized_lines.append(buffer)]. *)
Definition flush (normalized_lines : list pystr) (buffer : pystr)
  : list pystr :=
  match buffer with
  | [] => normalized_lines
  | _ :: _ => normalized_lines ++ [buffer]
  end.

(** The body of the loop over [enumerate(lines)]; the state is
    [(normalized_lines, buffer)]. *)
Definition merge_line (lines : list pystr) (st : list pystr * pystr)
  (il : nat * pystr) : list pystr * pystr :=
  let '(normalized_lines, buffer) := st in
  let line := strip (snd il) in
  if is_empty line then (flush normalized_lines buffer ++ [[]], [])
  else if is_header lines (fst il) line
  then (flush normalized_lines buffer ++ [line], [])
  else
    let buffer := if is_empty buffer then line else buffer ++ [32%N] ++ line in
    if ends_with_punct line then (normalized_lines ++ [buffer], [])
    else (normalized_lines, buffer).

(** [if current_paragraph: paragraph_chunks.append(" ".join(...))]. *)
Definition close_paragraph (chunks current : list pystr) : list pystr :=
  match current with
  | [] => chunks
  | _ :: _ => chunks ++ [join [32%N] current]
  end.

(** The body of the loop that creates paragraphs; the state is
    [(paragraph_chunks, current_paragraph)]. *)
Definition gather (st : list pystr * list pystr) (line : pystr)
  : list pystr * list pystr :=
  let '(chunks, current) := st in
  if is_empty line then (close_paragraph chunks current, [])
  else (chunks, current ++ [line]).

Definition _normalize_text (text : pystr) : pystr :=
  if is_empty text then []
  else
    let text := dehyphenate text in
    let lines := split_on 10 text in
    let '(normalized_lines, buffer) :=
      fold_left (merge_line lines) (enumerate lines) ([], []) in
    let normalized_lines := flush normalized_lines buffer in
    let '(chunks, current) := fold_left gather normalized_lines ([], []) in
    let paragraph_chunks := close_paragraph chunks current in
    let result := join [10; 10]%N paragraph_chunks in
    let result := re_sub (plus (lit 32)) (fun _ => [32%N]) result in
    re_sub (at_least 3 (lit 10)) (fun _ => [10; 10]%N) result.

(** The seven patterns of [_filter_content], compiled with
    [re.IGNORECASE]. *)
Definition digits : regex := plus (Chr (digit_char U)).
Definition space_or_hyphen : regex :=
  Chr (fun c => space_char U c || N.eqb c 45).
Definition letter_i (c : N) : bool := range_i U 97 122 c.
Definition upper_i (c : N) : bool := range_i U 65 90 c.

Definition patterns_to_filter : list regex := [
  (* Page \d+ of \d+ *)
  seq_of [str_i U "Page "; digits; str_i U " of "; digits];
  (* Copyright Â©.*?reserved *)
  seq_of [str_i U "Copyright "; lit_i U 194; lit 169;
          star_lazy (Chr (fun c => negb (N.eqb c 10))); str_i U "reserved"];
  (* www\.[a-zA-Z0-9-]+\.[a-z]{2,} *)
  seq_of [str_i U "www.";
          plus (Chr (fun c => letter_i c || upper_i c || in_range 48 57 c
                              || N.eqb c 45));
          lit 46; at_least 2 (Chr letter_i)];
  (* [A-Z0-9._%+-]+@[A-Z0-9.-]+\.[A-Z]{2,} *)
  seq_of [plus (Chr (fun c => upper_i c || in_range 48 57 c
                              || existsb (N.eqb c) [46; 95; 37; 43; 45]%N));
          lit 64;
          plus (Chr (fun c => upper_i c || in_range 48 57 c
                              || existsb (N.eqb c) [46; 45]%N));
          lit 46; at_least 2 (Chr upper_i)];
  (* (?:(?:\+|00)[1-9]\d{1,2}[\s-]?)?(?:\d{2,4}[\s-]?){2,5} *)
  seq_of [opt (seq_of [Alt (lit 43) (seq_of [lit 48; lit 48]);
                       Chr (in_range 49 57);
                       between 1 2 (Chr (digit_char U));
                       opt space_or_hyphen]);
          between 2 5 (seq_of [between 2 4 (Chr (digit_char U));
                               opt space_or_hyphen])];
  str_i U "ADVERTISEMENT";
  str_i U "CLASSIFIEDS"
].

(** The loop [for pattern in patterns_to_filter: text = re.sub(...)]. *)
Definition strip_patterns (text : pystr) : pystr :=
  fold_left (fun t r => re_sub r (fun _ => []) t) patterns_to_filter text.

(** A stripped, non-empty line is dropped when it is short. *)
Definition is_short (line : pystr) : bool :=
  (length (words line) <=? 2)%nat && (length line <? 15)%nat.

(** The body of the loop over the lines. *)
Definition filter_line (filtered_lines : list pystr) (raw : pystr)
  : list pystr :=
  let line := strip raw in
  if is_empty line then filtered_lines ++ [[]]
  else if is_short line then filtered_lines
  else filtered_lines ++ [line].

(** What the loop over the lines keeps of one line. *)
Definition kept_of (raw : pystr) : list pystr :=
  filter_line [] raw.

(** The test a stripped line passes to stay in the output. *)
Definition stays (line : pystr) : bool :=
  is_empty line || negb (is_short line).

Definition _filter_content (text : pystr) : pystr :=
  let text := strip_patterns text in
  let lines := split_on 10 text in
  join [10%N] (fold_left filter_line lines []).

End Passes.

(** Line breaks in examples. *)
Definition nl : pystr := [10%N].

(** Sample texts. *)
Definition torn_paragraph : pystr :=
  py "MARKET NEWS" ++ nl ++ nl ++ py "The market opens at" ++ nl
  ++ py "nine   today." ++ nl ++ py "Big crowds were expec-" ++ nl
  ++ py "ted" ++ nl ++ nl ++ nl ++ nl ++ py " Second para".

Definition torn_word : pystr :=
  py "inter-" ++ nl ++ py "nation-" ++ nl ++ py "al".

Definition spaced_report : pystr :=
  py "Market opens at nine today" ++ nl ++ nl ++ py "  Hi there " ++ nl
  ++ py "Council meets on Friday evening".

End Text.

(** ** The pipeline: [scrape_website] *)

Module Scraper.
Import Regex Text Crawler.

Definition bytes := list N.

(** A path, as the list of its components. *)
Definition path := list pystr.

(** [p / name]; an empty name adds no component. *)
Definition path_join (p : path) (name : pystr) : path :=
  if is_empty name then p else p ++ [name].

(** How a call ends: it returns a value or an exception leaves it. *)
Inductive outcome (A : Type) : Type :=
| Returned (a : A)
| Raised (exception : pystr).
Arguments Returned {A} a.
Arguments Raised {A} exception.

(** What the scraper does to the file system. *)
Inductive fs_event : Type :=
| Mkdir (p : path)
| WriteText (p : path) (text : pystr).

(** [s.replace(old, new)] for a non-empty [old]: the text from the
    current position on, after [skip] characters of the occurrence just
    replaced. *)
Fixpoint replace_from (old new s : pystr) (skip : nat) : pystr :=
  match s with
  | [] => []
  | c :: s' =>
    match skip with
    | S k => replace_from old new s' k
    | O =>
      if startswith old s then new ++ replace_from old new s' (length old - 1)
      else c :: replace_from old new s' 0
    end
  end.

Definition replace (old new s : pystr) : pystr := replace_from old new s 0.

(** [str(n)] for a natural number. *)
Definition str_of_nat (n : nat) : pystr :=
  py (NilEmpty.string_of_uint (Nat.to_uint n)).

Section Pipeline.

Variable U : unicode_data.

(** The scraper's configuration. *)
Variable max_depth : Z.
Variable num_pdfs : Z.
Variable workers : Z.

(** The environment.
    - [pdfs_of] and [links_of]: the web as the crawl observes it.
    - [cwd] is [Path.cwd()].
    - [netloc url] is how [urlparse(url).netloc] ends: [urlparse] raises
      [ValueError] on a URL whose authority it rejects.
    - [download url] is the body that [session.get(url)] delivers, or
      [None] when the request, or [raise_for_status], raises.
    - [pdf_pages content] lists [page.get_text()] for the pages of the
      document, or is [None] when PyMuPDF raises.
    - [as_completed urls] lists the submitted downloads in the order in
      which they complete.
    The local file system is taken to accept [mkdir] and [write_text]. *)
Variable pdfs_of : url -> list url.
Variable links_of : url -> list url.
Variable cwd : path.
Variable netloc : pystr -> outcome pystr.
Variable download : url -> option bytes.
Variable pdf_pages : bytes -> option (list pystr).
Variable as_completed : list url -> list url.

(** The pattern [[^\w\-_]]. *)
Definition unsafe_char : regex :=
  Chr (fun c => negb (word_char U c || N.eqb c 45 || N.eqb c 95)).

(** The exception of [urlparse] is not caught. *)
Definition _get_website_folder_name (url : pystr) : outcome pystr :=
  match netloc url with
  | Raised exception => Raised exception
  | Returned parsed_netloc =>
    let domain := replace (py "www.") [] parsed_netloc in
    Returned (re_sub unsafe_char (fun _ => [95%N]) domain)
  end.

(** How [_create_output_directory] ends and what it did to the file
    system: when the folder name is computed, the directory is created
    and returned. *)
Definition _create_output_directory (base_url : pystr)
  : outcome path * list fs_event :=
  match _get_website_folder_name base_url with
  | Raised exception => (Raised exception, [])
  | Returned folder_name =>
    let output_dir :=
      path_join (path_join cwd (py "scraped_content")) folder_name in
    (Returned output_dir, [Mkdir output_dir])
  end.

Definition _download_pdf (url : pystr) : bytes :=
  match download url with
  | Some content => content
  | None => []
  end.

Definition _extract_text_from_pdf (pdf_content : bytes) : pystr :=
  if is_empty pdf_content then []
  else
    match pdf_pages pdf_content with
    | None => []
    | Some pages =>
      let raw_text := join [10%N] (filter (fun t => negb (is_empty t)) pages) in
      if is_empty raw_text then []
      else _normalize_text U (_filter_content U raw_text)
    end.

(** The body of the loop over the completed downloads; the state is the
    list of file-system events so far. *)
Definition save_text (output_dir : path) (fs : list fs_event)
  (iu : nat * url) : list fs_event :=
  let pdf_content := _download_pdf (snd iu) in
  if is_empty pdf_content then fs
  else
    let text := _extract_text_from_pdf pdf_content in
    if is_empty text then fs
    else
      let name := py "extracted_text_" ++ str_of_nat (fst iu + 1) ++ py ".txt" in
      fs ++ [WriteText (path_join output_dir name) text].

(** [scrape_website]: how the call ends, and what it did to the file
    system.  An exception that leaves [_create_output_directory] leaves
    the call, before any request is made.  [ThreadPoolExecutor] raises
    [ValueError] unless [max_workers] is positive. *)
Definition scrape_website (website_url : pystr)
  : outcome (option path) * list fs_event :=
  match _create_output_directory website_url with
  | (Raised exception, fs) => (Raised exception, fs)
  | (Returned output_dir, fs) =>
    let pdf_urls :=
      _discover_pdf_links max_depth num_pdfs pdfs_of links_of website_url in
    match pdf_urls with
    | [] => (Returned None, fs)
    | _ :: _ =>
      if workers <=? 0
      then (Raised (py "ValueError: max_workers must be greater than 0"), fs)
      else
        (Returned (Some output_dir),
         fold_left (save_text output_dir) (enumerate (as_completed pdf_urls))
                   fs)
    end
  end.

(** The loop of [scrape_multiple_websites]: the directories collected so
    far and the file-system events so far.  An exception that leaves
    [scrape_website] leaves the loop.  A [Path] is always true, so
    [if result] keeps every directory and drops [None]. *)
Fixpoint scrape_each (websites : list pystr) (results : list path)
  (fs : list fs_event) : outcome (list path) * list fs_event :=
  match websites with
  | [] => (Returned results, fs)
  | website :: others =>
    match scrape_website website with
    | (Returned result, fs') =>
      scrape_each others
                  (match result with
                   | Some dir => results ++ [dir]
                   | None => results
                   end)
                  (fs ++ fs')
    | (Raised exception, fs') => (Raised exception, fs ++ fs')
    end
  end.

Definition scrape_multiple_websites (websites : list pystr)
  : outcome (list path) * list fs_event :=
  scrape_each websites [] [].

(** A website on which the discovery returns at least one link. *)
Definition has_pdfs (website_url : pystr) : bool :=
  match _discover_pdf_links max_depth num_pdfs pdfs_of links_of website_url with
  | [] => false
  | _ :: _ => true
  end.

(** What the substitution in [_get_website_folder_name] does to one
    character. *)
Definition sanitize (c : N) : N :=
  if word_char U c || N.eqb c 45 || N.eqb c 95 then c else 95%N.

(** The name of the text file number [k]. *)
Definition text_file (output_dir : path) (k : nat) : path :=
  path_join output_dir (py "extracted_text_" ++ str_of_nat k ++ py ".txt").

End Pipeline.

(** *** An environment for examples *)

(** [urlparse(url).netloc] as [urllib.parse.urlsplit] computes it for a
    URL of ASCII characters: control characters and spaces at the start
    are dropped, tabs and line ends are removed; a scheme is a letter
    followed by letters, digits, [+], [-] and [.] up to the first colon;
    the netloc is what stands between [//] and the first of [/], [?] and
    [#]; a square bracket without its partner in the netloc raises.  (For
    a netloc holding both brackets, recent versions of the library go on
    to check the address between them; no example has one.) *)
Definition ascii_alpha (c : N) : bool :=
  ((65 <=? c) && (c <=? 90) || (97 <=? c) && (c <=? 122))%N.

Definition scheme_char (c : N) : bool :=
  ascii_alpha c || ((48 <=? c) && (c <=? 57))%N
  || N.eqb c 43 || N.eqb c 45 || N.eqb c 46.

(** The text after the first colon, when only scheme characters stand
    before it. *)
Fixpoint scheme_end (s : pystr) : option pystr :=
  match s with
  | [] => None
  | c :: s' =>
    if N.eqb c 58 then Some s'
    else if scheme_char c then scheme_end s' else None
  end.

Definition after_scheme (url : pystr) : pystr :=
  match url with
  | [] => []
  | c :: _ =>
    if ascii_alpha c
    then match scheme_end url with Some rest => rest | None => url end
    else url
  end.

Fixpoint take_until (p : N -> bool) (s : pystr) : pystr :=
  match s with
  | [] => []
  | c :: s' => if p c then [] else c :: take_until p s'
  end.

Definition demo_netloc (url : pystr) : outcome pystr :=
  let url := drop_while (fun c => (c <=? 32)%N) url in
  let url :=
    filter (fun c => negb (N.eqb c 9 || N.eqb c 13 || N.eqb c 10)) url in
  match after_scheme url with
  | 47%N :: 47%N :: rest =>
    let parsed_netloc :=
      take_until (fun c => N.eqb c 47 || N.eqb c 63 || N.eqb c 35) rest in
    if xorb (existsb (N.eqb 91) parsed_netloc)
            (existsb (N.eqb 93) parsed_netloc)
    then Raised (py "ValueError: Invalid IPv6 URL")
    else Returned parsed_netloc
  | _ => Returned []
  end.

(** A URL that [urlparse] rejects, and a website without PDF link. *)
Definition bad_url : pystr := py "http://[bad".
Definition plain_site : pystr := py "http://www.none.org/".

(** The example site, where every download fails. *)
Definition demo_scrape_at (workers : Z) (website_url : pystr)
  : outcome (option path) * list fs_event :=
  scrape_website ascii_data 1 5 workers demo_pdfs demo_links [py "home"]
                 demo_netloc (fun _ => None) (fun _ => None) (fun l => l)
                 website_url.

Definition demo_scrape (workers : Z) : outcome (option path) * list fs_event :=
  demo_scrape_at workers site.

(** A second environment: every download delivers the same document, of
    one page. *)
Definition demo_page : pystr :=
  py "Big crowds were expec-" ++ [10%N] ++ py "ted at the market today.".

Definition demo_scrape_many (workers : Z) (websites : list pystr)
  : outcome (list path) * list fs_event :=
  scrape_multiple_websites ascii_data 1 5 workers demo_pdfs demo_links
    [py "home"] demo_netloc (fun _ => Some [37%N])
    (fun _ => Some [demo_page]) (fun l => l) websites.

End Scraper.

(** * Properties *)

(** ** Strings and lists *)

Lemma str_eqb_eq (a b : pystr) : str_eqb a b = true <-> a = b.
Proof.
  revert b; induction a as [|x a IH]; intros [|y b]; simpl; split;
    try congruence; try reflexivity.
  - rewrite andb_true_iff, N.eqb_eq, IH. intros [-> ->]; reflexivity.
  - intros [= -> ->]. rewrite N.eqb_refl. simpl. apply IH. reflexivity.
Qed.

Lemma mem_In (x : pystr) (s : list pystr) : mem x s = true <-> In x s.
Proof.
  unfold mem. rewrite existsb_exists. split.
  - intros (y & Hy & E). apply str_eqb_eq in E. subst; assumption.
  - intros H. exists x. split; [assumption | apply str_eqb_eq; reflexivity].
Qed.

Lemma mem_false (x : pystr) (s : list pystr) : mem x s = false <-> ~ In x s.
Proof.
  rewrite <- mem_In. destruct (mem x s); split; congruence.
Qed.

Lemma slice_to_nonneg {A : Type} (n : Z) (l : list A) :
  0 <= n -> slice_to n l = firstn (Z.to_nat n) l.
Proof.
  intros H. unfold slice_to. destruct (0 <=? n) eqn:E; [reflexivity | lia].
Qed.

Lemma slice_to_prefix {A : Type} (n : Z) (l : list A) :
  exists k, slice_to n l = firstn k l.
Proof.
  unfold slice_to. destruct (0 <=? n); eexists; reflexivity.
Qed.

Lemma NoDup_firstn {A : Type} (k : nat) (l : list A) :
  NoDup l -> NoDup (firstn k l).
Proof.
  intros H. rewrite <- (firstn_skipn k l) in H.
  apply NoDup_app_remove_r in H. exact H.
Qed.

Lemma list_sum_filter_le {A : Type} (f : A -> nat) (p : A -> bool) (l : list A) :
  (list_sum (map f (filter p l)) <= list_sum (map f l))%nat.
Proof.
  induction l as [|x l IH]; simpl; [lia|].
  destruct (p x); simpl; lia.
Qed.

Lemma StronglySorted_snoc (l : list Z) (x : Z) :
  StronglySorted Z.le l -> Forall (fun y => y <= x) l ->
  StronglySorted Z.le (l ++ [x]).
Proof.
  induction 1 as [|y l Hs IH Hy]; intros Hx; simpl.
  - repeat constructor.
  - inversion Hx; subst. constructor; [apply IH; assumption|].
    apply Forall_app. split; [assumption | constructor; [assumption | constructor]].
Qed.

Lemma StronglySorted_app_const (l : list Z) (x : Z) (n : nat) :
  StronglySorted Z.le l -> Forall (fun y => y <= x) l ->
  StronglySorted Z.le (l ++ repeat x n).
Proof.
  revert l. induction n as [|n IH]; intros l Hs Hx; simpl.
  - rewrite app_nil_r. assumption.
  - replace (l ++ x :: repeat x n) with ((l ++ [x]) ++ repeat x n)
      by (rewrite <- app_assoc; reflexivity).
    apply IH.
    + apply StronglySorted_snoc; assumption.
    + apply Forall_app. split; [assumption | repeat constructor; lia].
Qed.

Lemma StronglySorted_app_inv_l (l1 l2 : list Z) :
  StronglySorted Z.le (l1 ++ l2) -> StronglySorted Z.le l1.
Proof.
  induction l1 as [|x l1 IH]; simpl; intros H; [constructor|].
  inversion H as [|? ? Hs Hall]; subst. constructor; [apply IH; assumption|].
  apply Forall_app in Hall. tauto.
Qed.

Lemma StronglySorted_app_inv_r (l1 l2 : list Z) :
  StronglySorted Z.le (l1 ++ l2) -> StronglySorted Z.le l2.
Proof.
  induction l1 as [|x l1 IH]; simpl; intros H; [assumption|].
  inversion H; subst. apply IH; assumption.
Qed.

Lemma StronglySorted_app_le (l1 l2 : list Z) :
  StronglySorted Z.le (l1 ++ l2) ->
  forall x y, In x l1 -> In y l2 -> x <= y.
Proof.
  induction l1 as [|a l1 IH]; simpl; intros H x y Hx Hy; [contradiction|].
  inversion H as [|? ? Hs Hall]; subst. destruct Hx as [<- | Hx].
  - rewrite Forall_forall in Hall. apply Hall, in_or_app. right; assumption.
  - apply IH; assumption.
Qed.

Lemma StronglySorted_app_remove (l1 l2 : list Z) (x : Z) :
  StronglySorted Z.le (l1 ++ x :: l2) -> StronglySorted Z.le (l1 ++ l2).
Proof.
  induction l1 as [|a l1 IH]; simpl; intros H.
  - inversion H; assumption.
  - inversion H as [|? ? Hs Hall]; subst. constructor; [apply IH; assumption|].
    apply Forall_app in Hall. destruct Hall as [H1 H2].
    inversion H2; subst. apply Forall_app. split; assumption.
Qed.

Lemma StronglySorted_nth (l : list Z) :
  StronglySorted Z.le l ->
  forall i j a b, (i <= j)%nat ->
    nth_error l i = Some a -> nth_error l j = Some b -> a <= b.
Proof.
  induction 1 as [|x l Hs IH Hall]; intros i j a b Hij Hi Hj.
  - destruct i; discriminate.
  - destruct i as [|i], j as [|j]; simpl in *.
    + injection Hi as <-. injection Hj as <-. lia.
    + injection Hi as <-. apply nth_error_In in Hj.
      rewrite Forall_forall in Hall. apply Hall; assumption.
    + lia.
    + apply (IH i j); [lia | assumption | assumption].
Qed.

(** ** The regular expression engine *)

Module RegexFacts.
Import Regex.

Section Matching.

Variable q : N -> bool.

Lemma sound_rep_opt (m : matcher) (greedy : bool) (n : nat) :
  sound q m -> sound q (rep_opt m greedy n).
Proof.
  intros Hm. induction n as [|n IH]; intros caps s caps' rest Hin; simpl in Hin.
  - destruct Hin as [[= <- <-] | []]. exists []. split; [reflexivity | constructor].
  - assert (Hstop : (caps, s) = (caps', rest) ->
                    exists x, s = x ++ rest /\ Forall (fun c => q c = true) x).
    { intros [= <- <-]. exists []. split; [reflexivity | constructor]. }
    assert (Hmore : In (caps', rest)
              (flat_map (fun cs =>
                 if (length (snd cs) <? length s)%nat
                 then rep_opt m greedy n (fst cs) (snd cs) else []) (m caps s)) ->
              exists x, s = x ++ rest /\ Forall (fun c => q c = true) x).
    { intros H. apply in_flat_map in H. destruct H as ([c1 s1] & H1 & H2).
      simpl in H2. destruct (length s1 <? length s)%nat; [| destruct H2].
      destruct (Hm _ _ _ _ H1) as (x1 & -> & Hx1).
      destruct (IH _ _ _ _ H2) as (x2 & -> & Hx2).
      exists (x1 ++ x2). split; [apply app_assoc | apply Forall_app; split; assumption]. }
    destruct greedy.
    + apply in_app_or in Hin. destruct Hin as [H | [H | []]]; auto.
    + destruct Hin as [H | H]; auto.
Qed.

Lemma sound_rep_min (m rest : matcher) (lo : nat) :
  sound q m -> sound q rest -> sound q (rep_min m lo rest).
Proof.
  intros Hm Hrest. induction lo as [|lo IH]; intros caps s caps' t Hin;
    simpl in Hin.
  - apply (Hrest _ _ _ _ Hin).
  - apply in_flat_map in Hin. destruct Hin as ([c1 s1] & H1 & H2). simpl in H2.
    destruct (Hm _ _ _ _ H1) as (x1 & -> & Hx1).
    destruct (IH _ _ _ _ H2) as (x2 & -> & Hx2).
    exists (x1 ++ x2). split; [apply app_assoc | apply Forall_app; split; assumption].
Qed.

(** A match splits the text into the matched part and the rest, and the
    matched part is made of characters of the pattern's classes. *)
Lemma rmatch_sound (r : regex) : classes_within q r -> sound q (rmatch r).
Proof.
  induction r as [| p | r1 IH1 r2 IH2 | r1 IH1 r2 IH2 | g lo hi r IH | i r IH];
    simpl; intros Hq caps s caps' rest Hin.
  - destruct Hin as [[= <- <-] | []]. exists []. split; [reflexivity | constructor].
  - destruct s as [|c s]; [destruct Hin|].
    destruct (p c) eqn:P; [| destruct Hin].
    destruct Hin as [[= <- <-] | []]. exists [c].
    split; [reflexivity | constructor; [apply Hq, P | constructor]].
  - destruct Hq as [Hq1 Hq2]. simpl in Hin. apply in_flat_map in Hin.
    destruct Hin as ([c1 s1] & H1 & H2). simpl in H2.
    destruct (IH1 Hq1 _ _ _ _ H1) as (x1 & -> & Hx1).
    destruct (IH2 Hq2 _ _ _ _ H2) as (x2 & -> & Hx2).
    exists (x1 ++ x2). split; [apply app_assoc | apply Forall_app; split; assumption].
  - destruct Hq as [Hq1 Hq2]. simpl in Hin. apply in_app_or in Hin.
    destruct Hin as [H | H]; [apply (IH1 Hq1 _ _ _ _ H) | apply (IH2 Hq2 _ _ _ _ H)].
  - simpl in Hin. revert Hin. apply sound_rep_min; [apply IH, Hq|].
    intros c1 s1 c2 s2. apply sound_rep_opt. apply IH, Hq.
  - simpl in Hin. apply in_map_iff in Hin. destruct Hin as ([c1 s1] & [= <- <-] & H1).
    apply (IH Hq _ _ _ _ H1).
Qed.

End Matching.

Lemma rmatch_suffix (r : regex) : sound (fun _ => true) (rmatch r).
Proof.
  apply rmatch_sound. induction r; simpl; auto.
Qed.

Lemma sound_length (q : N -> bool) (m : matcher) caps s caps' rest :
  sound q m -> In (caps', rest) (m caps s) -> (length rest <= length s)%nat.
Proof.
  intros Hm Hin. destruct (Hm _ _ _ _ Hin) as (x & -> & _).
  rewrite length_app. lia.
Qed.

Lemma progresses_rep_min (m rest : matcher) (lo : nat) :
  sound (fun _ => true) m -> sound (fun _ => true) rest ->
  progresses m -> progresses (rep_min m (S lo) rest).
Proof.
  intros Hm Hrest Hp caps s caps' t Hin. simpl in Hin.
  apply in_flat_map in Hin. destruct Hin as ([c1 s1] & H1 & H2). simpl in H2.
  pose proof (Hp _ _ _ _ H1) as Hd.
  pose proof (sound_length _ _ _ _ _ _ (sound_rep_min _ m rest lo Hm Hrest) H2).
  lia.
Qed.

(** A pattern that passes the syntactic test has no empty match. *)
Lemma rmatch_progresses (r : regex) :
  consumes r = true -> progresses (rmatch r).
Proof.
  induction r as [| p | r1 IH1 r2 IH2 | r1 IH1 r2 IH2 | g lo hi r IH | i r IH];
    simpl; intros Hc caps s caps' rest Hin.
  - discriminate.
  - destruct s as [|c s]; [destruct Hin|].
    destruct (p c); [| destruct Hin]. destruct Hin as [[= <- <-] | []].
    simpl. lia.
  - simpl in Hin. apply in_flat_map in Hin.
    destruct Hin as ([c1 s1] & H1 & H2). simpl in H2.
    pose proof (sound_length _ _ _ _ _ _ (rmatch_suffix r1) H1).
    pose proof (sound_length _ _ _ _ _ _ (rmatch_suffix r2) H2).
    apply orb_true_iff in Hc. destruct Hc as [Hc | Hc].
    + pose proof (IH1 Hc _ _ _ _ H1). lia.
    + pose proof (IH2 Hc _ _ _ _ H2). lia.
  - apply andb_true_iff in Hc. destruct Hc as [Hc1 Hc2].
    simpl in Hin. apply in_app_or in Hin.
    destruct Hin as [H | H]; [apply (IH1 Hc1 _ _ _ _ H) | apply (IH2 Hc2 _ _ _ _ H)].
  - apply andb_true_iff in Hc. destruct Hc as [Hlo Hc].
    destruct lo as [|lo]; [discriminate|].
    revert Hin. apply progresses_rep_min; [apply rmatch_suffix | | apply IH, Hc].
    intros c1 s1 c2 s2. apply sound_rep_opt. apply rmatch_suffix.
  - simpl in Hin. apply in_map_iff in Hin. destruct Hin as ([c1 s1] & [= <- <-] & H1).
    apply (IH Hc _ _ _ _ H1).
Qed.

Lemma first_match_In (r : regex) (adv : bool) (s : pystr) cs :
  first_match r adv s = Some cs -> In cs (rmatch r [] s).
Proof.
  unfold first_match. intros H. apply find_some in H. tauto.
Qed.

End RegexFacts.

(** ** Text reconstruction *)

Module TextFacts.
Import Regex RegexFacts Text.

Lemma join_split_on (sep : N) (s : pystr) : join [sep] (split_on sep s) = s.
Proof.
  induction s as [|c s IH]; simpl; [reflexivity|].
  destruct (N.eqb c sep) eqn:E.
  - apply N.eqb_eq in E. subst c.
    destruct (split_on sep s) as [|piece pieces] eqn:S.
    + destruct s; simpl in S; [discriminate|].
      destruct (N.eqb n sep); [discriminate|].
      destruct (split_on sep s); discriminate.
    + simpl. simpl in IH. rewrite IH. reflexivity.
  - destruct (split_on sep s) as [|piece pieces] eqn:S.
    + simpl in IH. subst s. discriminate.
    + destruct pieces; simpl in *; rewrite IH; reflexivity.
Qed.

Lemma split_on_no_sep (sep : N) (s : pystr) :
  Forall (fun piece => ~ In sep piece) (split_on sep s).
Proof.
  induction s as [|c s IH]; simpl.
  - constructor; [intros [] | constructor].
  - destruct (N.eqb c sep) eqn:E.
    + constructor; [intros [] | assumption].
    + destruct (split_on sep s) as [|piece pieces].
      * constructor; [| constructor]. intros [-> | []].
        rewrite N.eqb_refl in E. discriminate.
      * inversion IH; subst. constructor; [| assumption].
        intros [-> | H]; [rewrite N.eqb_refl in E; discriminate | contradiction].
Qed.

Lemma split_on_join (sep : N) (pieces : list pystr) :
  pieces <> [] -> Forall (fun piece => ~ In sep piece) pieces ->
  split_on sep (join [sep] pieces) = pieces.
Proof.
  induction pieces as [|x rest IH]; intros Hne Hall; [congruence|].
  inversion Hall as [|? ? Hx Hrest]; subst.
  assert (Hone : forall y, ~ In sep y -> split_on sep y = [y]).
  { induction y as [|c y IHy]; intros Hy; simpl; [reflexivity|].
    destruct (N.eqb c sep) eqn:E.
    - apply N.eqb_eq in E. subst. exfalso. apply Hy. left; reflexivity.
    - rewrite IHy; [reflexivity | intros H; apply Hy; right; assumption]. }
  destruct rest as [|y rest].
  - simpl. apply Hone, Hx.
  - assert (IH' : split_on sep (join [sep] (y :: rest)) = y :: rest)
      by (apply IH; [discriminate | assumption]).
    change (join [sep] (x :: y :: rest))
      with (x ++ sep :: join [sep] (y :: rest)).
    clear IH Hall Hne Hone. revert IH'.
    generalize (join [sep] (y :: rest)) as tail. intros tail IH'.
    induction x as [|c x IHx]; simpl.
    + rewrite N.eqb_refl, IH'. reflexivity.
    + destruct (N.eqb c sep) eqn:E.
      * apply N.eqb_eq in E. subst. exfalso. apply Hx. left; reflexivity.
      * rewrite IHx; [reflexivity | intros H; apply Hx; right; assumption].
Qed.

Lemma map_snd_enumerate {A : Type} (l : list A) : map snd (enumerate l) = l.
Proof.
  unfold enumerate. generalize 0%nat. induction l as [|x l IH]; intros n;
    simpl; [reflexivity | f_equal; apply IH].
Qed.

Section Passes.

Variable U : unicode_data.

Local Abbreviation space := (fun c => isspace U c = true).
Local Abbreviation split_ws := (split_ws U).
Local Abbreviation words := (words U).
Local Abbreviation flat_words := (flat_words U).
Local Abbreviation strip := (strip U).
Local Abbreviation ws_equiv := (ws_equiv U).

(** *** Words *)

Lemma split_ws_spaces (cur w x : pystr) :
  Forall space w -> w <> [] ->
  split_ws cur (w ++ x) = (if is_empty cur then [] else [cur]) ++ split_ws [] x.
Proof.
  intros Hw Hne. destruct w as [|c w]; [congruence|].
  inversion Hw as [|? ? Hc Hw']; subst. simpl. rewrite Hc. f_equal.
  clear Hne Hw Hc. induction Hw' as [|d w Hd Hw' IH]; simpl; [reflexivity|].
  rewrite Hd. exact IH.
Qed.

Lemma words_spaces (w x : pystr) : Forall space w -> words (w ++ x) = words x.
Proof.
  intros Hw. destruct w as [|c w]; [reflexivity|].
  unfold Text.words. rewrite split_ws_spaces; [reflexivity | assumption | discriminate].
Qed.

Lemma words_only_spaces (w : pystr) : Forall space w -> words w = [].
Proof.
  intros Hw. rewrite <- (app_nil_r w). rewrite words_spaces by assumption.
  reflexivity.
Qed.

Lemma split_ws_app (cur a b : pystr) (c : N) :
  isspace U c = true ->
  split_ws cur (a ++ c :: b) = split_ws cur a ++ split_ws [] b.
Proof.
  intros Hc. revert cur. induction a as [|d a IH]; intros cur; simpl.
  - rewrite Hc. destruct (is_empty cur); reflexivity.
  - destruct (isspace U d).
    + rewrite IH, app_assoc. reflexivity.
    + apply IH.
Qed.

(** White space between two texts separates their words. *)
Lemma words_app (a w b : pystr) :
  Forall space w -> w <> [] -> words (a ++ w ++ b) = words a ++ words b.
Proof.
  intros Hw Hne. destruct w as [|c w]; [congruence|].
  inversion Hw; subst. unfold Text.words. simpl.
  rewrite split_ws_app by assumption. f_equal.
  apply words_spaces. assumption.
Qed.

Lemma words_join (sep : pystr) (pieces : list pystr) :
  Forall space sep -> sep <> [] ->
  words (join sep pieces) = flat_words pieces.
Proof.
  intros Hs Hne. induction pieces as [|x rest IH]; [reflexivity|].
  destruct rest as [|y rest].
  - unfold Text.flat_words. simpl. rewrite app_nil_r. reflexivity.
  - change (join sep (x :: y :: rest)) with (x ++ sep ++ join sep (y :: rest)).
    rewrite words_app by assumption. rewrite IH. reflexivity.
Qed.

Lemma drop_while_split (p : N -> bool) (s : pystr) :
  exists w, s = w ++ drop_while p s /\ Forall (fun c => p c = true) w.
Proof.
  induction s as [|c s (w & Hw & Hall)]; simpl.
  - exists []. split; [reflexivity | constructor].
  - destruct (p c) eqn:P.
    + exists (c :: w). split; [simpl; f_equal; exact Hw | constructor; assumption].
    + exists []. split; [reflexivity | constructor].
Qed.

Lemma strip_split (s : pystr) :
  exists w1 w2, s = w1 ++ strip s ++ w2 /\ Forall space w1 /\ Forall space w2.
Proof.
  unfold Text.strip, Text.rstrip, Text.lstrip.
  destruct (drop_while_split (isspace U) s) as (w1 & H1 & Hw1).
  destruct (drop_while_split (isspace U) (rev (drop_while (isspace U) s)))
    as (w2 & H2 & Hw2).
  exists w1, (rev w2). repeat split; [| assumption | apply Forall_rev; assumption].
  rewrite <- rev_app_distr, <- H2, rev_involutive. exact H1.
Qed.

Lemma words_strip (s : pystr) : words (strip s) = words s.
Proof.
  destruct (strip_split s) as (w1 & w2 & Hs & Hw1 & Hw2).
  rewrite Hs at 2. rewrite words_spaces by assumption.
  destruct w2 as [|c w2]; [rewrite app_nil_r; reflexivity|].
  replace (strip s ++ c :: w2) with (strip s ++ (c :: w2) ++ [])
    by (rewrite app_nil_r; reflexivity).
  rewrite words_app; [| assumption | discriminate].
  symmetry. apply app_nil_r.
Qed.

Lemma flat_words_app (l1 l2 : list pystr) :
  flat_words (l1 ++ l2) = flat_words l1 ++ flat_words l2.
Proof.
  unfold Text.flat_words. rewrite map_app, concat_app. reflexivity.
Qed.

Lemma flat_words_one (x : pystr) : flat_words [x] = words x.
Proof. unfold Text.flat_words. simpl. apply app_nil_r. Qed.

(** *** Substitutions that only rewrite white space *)

Lemma ws_equiv_cons (c : N) (x y : pystr) :
  ws_equiv x y -> ws_equiv (c :: x) (c :: y).
Proof.
  intros H cur. simpl. rewrite (H []), (H (cur ++ [c])). reflexivity.
Qed.

Lemma ws_equiv_spaces (w m x y : pystr) :
  Forall space w -> w <> [] -> Forall space m -> m <> [] ->
  ws_equiv x y -> ws_equiv (w ++ x) (m ++ y).
Proof.
  intros Hw Hw' Hm Hm' H cur.
  rewrite !split_ws_spaces by assumption. rewrite (H []). reflexivity.
Qed.

Lemma sub_from_ws (r : regex) (w : pystr) :
  classes_within (isspace U) r -> consumes r = true ->
  Forall space w -> w <> [] ->
  forall s skip, ws_equiv (sub_from r (fun _ => w) s skip) (skipn skip s).
Proof.
  intros Hq Hc Hw Hne.
  pose proof (rmatch_sound (isspace U) r Hq) as Hsound.
  pose proof (rmatch_progresses r Hc) as Hprog.
  induction s as [|c s IH]; intros skip.
  - destruct skip; simpl; [| intros cur; reflexivity].
    destruct (first_match r false []) as [cs|] eqn:F; [| intros cur; reflexivity].
    apply first_match_In in F. destruct cs as [caps rest].
    apply Hprog in F. simpl in F. lia.
  - destruct skip as [|k]; [| apply IH].
    cbn [sub_from skipn].
    destruct (first_match r false (c :: s)) as [[caps rest]|] eqn:F;
      [| apply ws_equiv_cons, (IH 0%nat)].
    apply first_match_In in F.
    pose proof (Hprog _ _ _ _ F) as Hd.
    destruct (Hsound _ _ _ _ F) as (m & Hm & Hall).
    cbn [fst snd].
    destruct (length (c :: s) - length rest)%nat as [|k] eqn:Hk;
      [cbn [length] in Hk, Hd; lia|].
    destruct m as [|c' m]; [simpl in Hm; subst rest; lia|].
    injection Hm as <- ->.
    assert (k = length m).
    { cbn [length] in Hk. rewrite length_app in Hk. lia. }
    subst k.
    apply (ws_equiv_spaces w (c :: m) _ rest);
      [assumption | assumption | assumption | discriminate |].
    intros cur. rewrite (IH (length m) cur).
    rewrite skipn_app, skipn_all, Nat.sub_diag. reflexivity.
Qed.

(** [re.sub] with a pattern that matches white space only, and never the
    empty string, and a replacement made of white space keeps the words. *)
Lemma re_sub_words (r : regex) (w s : pystr) :
  classes_within (isspace U) r -> consumes r = true ->
  Forall space w -> w <> [] ->
  words (re_sub r (fun _ => w) s) = words s.
Proof.
  intros Hq Hc Hw Hne. apply (sub_from_ws r w Hq Hc Hw Hne s 0%nat []).
Qed.

(** *** Paragraph reassembly *)

Hypothesis space_is_space : isspace U 32 = true.
Hypothesis newline_is_space : isspace U 10 = true.

Lemma words_nil : words [] = [].
Proof. reflexivity. Qed.

Lemma flush_words (normalized_lines : list pystr) (buffer : pystr) :
  flat_words (flush normalized_lines buffer) =
  flat_words normalized_lines ++ words buffer.
Proof.
  destruct buffer as [|c buffer]; simpl.
  - rewrite app_nil_r. reflexivity.
  - rewrite flat_words_app, flat_words_one. reflexivity.
Qed.

Lemma merge_line_words (lines : list pystr) (st : list pystr * pystr)
  (il : nat * pystr) :
  flat_words (fst (merge_line U lines st il)) ++
    words (snd (merge_line U lines st il)) =
  (flat_words (fst st) ++ words (snd st)) ++ words (snd il).
Proof.
  destruct st as [normalized_lines buffer]. unfold merge_line.
  rewrite <- (words_strip (snd il)).
  destruct (Text.strip U (snd il)) as [|c line] eqn:L; cbn [is_empty fst snd].
  - rewrite flat_words_app, flush_words, flat_words_one, !words_nil, !app_nil_r.
    reflexivity.
  - destruct (is_header U lines (fst il) (c :: line)); cbn [fst snd].
    + rewrite flat_words_app, flush_words, flat_words_one, words_nil, app_nil_r.
      reflexivity.
    + assert (Hb : words (if is_empty buffer then c :: line
                          else buffer ++ [32%N] ++ c :: line)
                   = words buffer ++ words (c :: line)).
      { destruct buffer as [|b buffer]; [reflexivity|]. cbn [is_empty].
        apply words_app; [repeat constructor; assumption | discriminate]. }
      destruct (ends_with_punct (c :: line)); cbn [fst snd].
      * rewrite flat_words_app, flat_words_one, Hb, words_nil, app_nil_r.
        rewrite app_assoc. reflexivity.
      * rewrite Hb, app_assoc. reflexivity.
Qed.

Lemma merge_lines_words (lines : list pystr) (ils : list (nat * pystr))
  (st : list pystr * pystr) :
  let st' := fold_left (merge_line U lines) ils st in
  flat_words (fst st') ++ words (snd st') =
  (flat_words (fst st) ++ words (snd st)) ++ flat_words (map snd ils).
Proof.
  revert st. induction ils as [|il ils IH]; intros st; simpl.
  - rewrite app_nil_r. reflexivity.
  - simpl in IH. rewrite IH, merge_line_words.
    unfold Text.flat_words at 4. simpl. rewrite <- !app_assoc. reflexivity.
Qed.

Lemma close_paragraph_words (chunks current : list pystr) :
  flat_words (close_paragraph chunks current) =
  flat_words chunks ++ flat_words current.
Proof.
  destruct current as [|x current]; unfold close_paragraph.
  - rewrite app_nil_r. reflexivity.
  - rewrite flat_words_app, flat_words_one. f_equal.
    apply words_join; [repeat constructor; assumption | discriminate].
Qed.

Lemma gather_words (ls : list pystr) (st : list pystr * list pystr) :
  let st' := fold_left gather ls st in
  flat_words (fst st') ++ flat_words (snd st') =
  (flat_words (fst st) ++ flat_words (snd st)) ++ flat_words ls.
Proof.
  revert st. induction ls as [|line ls IH]; intros [chunks current]; simpl.
  - rewrite app_nil_r. reflexivity.
  - simpl in IH. rewrite IH. unfold Text.flat_words at 6. simpl.
    fold (flat_words ls). rewrite app_assoc. f_equal.
    destruct line as [|c line]; cbn [is_empty fst snd].
    + rewrite close_paragraph_words, words_nil, !app_nil_r. reflexivity.
    + rewrite flat_words_app, flat_words_one, app_assoc. reflexivity.
Qed.

Lemma words_lines (s : pystr) : flat_words (split_on 10 s) = words s.
Proof.
  rewrite <- (join_split_on 10 s) at 2.
  symmetry. apply words_join; [repeat constructor; assumption | discriminate].
Qed.

Lemma spaces_pattern :
  classes_within (isspace U) (plus (lit 32)) /\
  consumes (plus (lit 32)) = true.
Proof.
  split; [| reflexivity]. intros c Hc. apply N.eqb_eq in Hc. subst c.
  exact space_is_space.
Qed.

Lemma newlines_pattern :
  classes_within (isspace U) (at_least 3 (lit 10)) /\
  consumes (at_least 3 (lit 10)) = true.
Proof.
  split; [| reflexivity]. intros c Hc. apply N.eqb_eq in Hc. subst c.
  exact newline_is_space.
Qed.

(** C6.  Paragraph reassembly loses no text: provided the space and the
    line feed are white space for [str.split], the words of the string
    returned by [_normalize_text] are the words of the de-hyphenated
    input, in the same order. *)
Theorem normalize_keeps_words (text : pystr) :
  words (_normalize_text U text) = words (dehyphenate U text).
Proof.
  unfold _normalize_text. destruct text as [|c text]; [reflexivity|].
  cbn [is_empty]. set (t := dehyphenate U (c :: text)).
  pose proof (merge_lines_words (split_on 10 t) (enumerate (split_on 10 t))
                ([], [])) as M.
  destruct (fold_left (merge_line U (split_on 10 t)) (enumerate (split_on 10 t))
                      ([], [])) as [normalized_lines buffer].
  pose proof (gather_words (flush normalized_lines buffer) ([], [])) as G.
  destruct (fold_left gather (flush normalized_lines buffer) ([], []))
    as [chunks current].
  cbn [fst snd] in M, G. simpl in M, G.
  rewrite map_snd_enumerate, words_lines in M.
  rewrite flush_words, M in G.
  destruct newlines_pattern as [Hn1 Hn2]. destruct spaces_pattern as [Hs1 Hs2].
  rewrite re_sub_words;
    [| assumption | assumption
     | repeat constructor; exact newline_is_space | discriminate].
  rewrite re_sub_words;
    [| assumption | assumption
     | repeat constructor; exact space_is_space | discriminate].
  rewrite words_join;
    [| repeat constructor; exact newline_is_space | discriminate].
  rewrite close_paragraph_words. exact G.
Qed.

(** *** Boilerplate filtering *)

Lemma filter_line_app (acc : list pystr) (raw : pystr) :
  filter_line U acc raw = acc ++ kept_of U raw.
Proof.
  unfold kept_of, filter_line.
  destruct (is_empty (Text.strip U raw)); [reflexivity|].
  destruct (is_short U (Text.strip U raw)); [rewrite app_nil_r|]; reflexivity.
Qed.

Lemma filter_lines_flat (lines acc : list pystr) :
  fold_left (filter_line U) lines acc = acc ++ flat_map (kept_of U) lines.
Proof.
  revert acc. induction lines as [|raw lines IH]; intros acc; simpl.
  - rewrite app_nil_r. reflexivity.
  - rewrite IH, filter_line_app, <- app_assoc. reflexivity.
Qed.

Lemma kept_of_cases (raw line : pystr) :
  In line (kept_of U raw) ->
  line = strip raw /\ (line = [] \/ is_short U line = false).
Proof.
  unfold kept_of, filter_line.
  destruct (Text.strip U raw) as [|c l] eqn:S; cbn [is_empty app].
  - intros [<- | []]. auto.
  - destruct (is_short U (c :: l)) eqn:Sh; [intros [] |].
    intros [<- | []]. auto.
Qed.

Lemma strip_no_newline (raw : pystr) : ~ In 10%N raw -> ~ In 10%N (strip raw).
Proof.
  intros H Hin. apply H. destruct (strip_split raw) as (w1 & w2 & -> & _).
  apply in_or_app. right. apply in_or_app. left. assumption.
Qed.

(** The lines of the output are the lines the loop kept. *)
Lemma filter_content_lines (text : pystr) :
  let kept := flat_map (kept_of U) (split_on 10 (strip_patterns U text)) in
  kept <> [] -> split_on 10 (_filter_content U text) = kept.
Proof.
  intros kept Hne. unfold _filter_content.
  rewrite filter_lines_flat. simpl. fold kept.
  apply split_on_join; [assumption|].
  apply Forall_forall. intros line Hin. unfold kept in Hin.
  apply in_flat_map in Hin. destruct Hin as (raw & Hraw & Hline).
  apply kept_of_cases in Hline. destruct Hline as [-> _].
  apply strip_no_newline.
  pose proof (split_on_no_sep 10 (strip_patterns U text)) as Hall.
  rewrite Forall_forall in Hall. apply Hall, Hraw.
Qed.

Lemma filter_content_line (text line : pystr) :
  In line (split_on 10 (_filter_content U text)) -> line <> [] ->
  exists raw, In raw (split_on 10 (strip_patterns U text)) /\
              line = strip raw /\ is_short U line = false.
Proof.
  intros Hin Hne.
  destruct (flat_map (kept_of U) (split_on 10 (strip_patterns U text)))
    as [|k kept] eqn:K.
  - unfold _filter_content in Hin. rewrite filter_lines_flat in Hin.
    simpl in Hin. rewrite K in Hin. simpl in Hin.
    destruct Hin as [<- | []]. congruence.
  - rewrite filter_content_lines in Hin by (rewrite K; discriminate).
    apply in_flat_map in Hin. destruct Hin as (raw & Hraw & Hline).
    apply kept_of_cases in Hline. destruct Hline as [-> [E | Hs]]; [congruence|].
    exists raw. auto.
Qed.

(** C7 (amended).  In the string returned by [_filter_content], every
    non-empty line has more than two words or at least 15 characters;
    every input line that, after the pattern substitutions and stripping,
    is not empty and has at most two words and fewer than 15 characters
    is absent from the output; a line that is empty after stripping is
    kept, as an empty line. *)
Theorem short_lines_filtered (text : pystr) :
  (forall line, In line (split_on 10 (_filter_content U text)) ->
     line <> [] ->
     (2 < length (words line))%nat \/ (15 <= length line)%nat) /\
  (forall raw, In raw (split_on 10 (strip_patterns U text)) ->
     strip raw <> [] ->
     (length (words (strip raw)) <= 2)%nat ->
     (length (strip raw) < 15)%nat ->
     ~ In (strip raw) (split_on 10 (_filter_content U text))) /\
  (forall raw, In raw (split_on 10 (strip_patterns U text)) ->
     strip raw = [] -> In [] (split_on 10 (_filter_content U text))).
Proof.
  assert (H1 : forall line, In line (split_on 10 (_filter_content U text)) ->
     line <> [] ->
     (2 < length (words line))%nat \/ (15 <= length line)%nat).
  { intros line Hin Hne.
    destruct (filter_content_line text line Hin Hne) as (raw & _ & _ & Hs).
    unfold is_short in Hs. apply andb_false_iff in Hs.
    destruct Hs as [Hs | Hs]; [left | right].
    - apply Nat.leb_gt in Hs. exact Hs.
    - apply Nat.ltb_ge in Hs. exact Hs. }
  split; [exact H1 | split].
  - intros raw _ Hne Hw Hl Hin. destruct (H1 _ Hin Hne); lia.
  - intros raw Hraw Hempty.
    assert (Hk : In [] (flat_map (kept_of U) (split_on 10 (strip_patterns U text)))).
    { apply in_flat_map. exists raw. split; [assumption|].
      unfold kept_of, filter_line. rewrite Hempty. left; reflexivity. }
    rewrite filter_content_lines; [exact Hk|].
    intros E. rewrite E in Hk. destruct Hk.
Qed.

End Passes.

(** *** The passes on sample texts *)

Example normalize_torn_paragraph :
  _normalize_text ascii_data torn_paragraph =
  py "MARKET NEWS" ++ nl ++ nl
  ++ py "The market opens at nine today. Big crowds were expected"
  ++ nl ++ nl ++ py "Second para".
Proof. vm_compute. reflexivity. Qed.

Lemma normalize_keeps_words_witness :
  isspace ascii_data 32 = true /\ isspace ascii_data 10 = true /\
  words ascii_data (_normalize_text ascii_data torn_paragraph) =
  words ascii_data (dehyphenate ascii_data torn_paragraph).
Proof.
  split; [reflexivity | split; [reflexivity |]].
  apply (normalize_keeps_words ascii_data); reflexivity.
Defined.

(** C5.  De-hyphenation misses a fragment that takes part in two breaks:
    in a word torn over three lines the substitution joins the first two
    fragments, resumes after the second one and leaves the second hyphen
    and line break in place; line merging then turns the break into a
    space. *)
Theorem dehyphenation_chained :
  dehyphenate ascii_data torn_word = py "internation-" ++ nl ++ py "al" /\
  _normalize_text ascii_data torn_word = py "internation- al" /\
  dehyphenate ascii_data (py "expec-" ++ nl ++ py "ted") = py "expected".
Proof. vm_compute. auto. Qed.

Example filter_spaced_report :
  _filter_content ascii_data spaced_report =
  py "Market opens at nine today" ++ nl ++ nl
  ++ py "Council meets on Friday evening".
Proof. vm_compute. reflexivity. Qed.

Lemma short_lines_filtered_witness :
  let raw := py "  Hi there " in
  In raw (split_on 10 (strip_patterns ascii_data spaced_report)) /\
  strip ascii_data raw <> [] /\
  (length (words ascii_data (strip ascii_data raw)) <= 2)%nat /\
  (length (strip ascii_data raw) < 15)%nat /\
  ~ In (strip ascii_data raw)
       (split_on 10 (_filter_content ascii_data spaced_report)).
Proof.
  intros raw.
  assert (H1 : In raw (split_on 10 (strip_patterns ascii_data spaced_report)))
    by (vm_compute; tauto).
  assert (H2 : strip ascii_data raw <> []) by (vm_compute; discriminate).
  assert (H3 : (length (words ascii_data (strip ascii_data raw)) <= 2)%nat)
    by (vm_compute; lia).
  assert (H4 : (length (strip ascii_data raw) < 15)%nat) by (vm_compute; lia).
  repeat (split; [assumption|]).
  exact (proj1 (proj2 (short_lines_filtered ascii_data spaced_report))
               raw H1 H2 H3 H4).
Defined.

(** The line left blank in the sample has no word and no character, and
    the output still has it: short lines are not all absent. *)
Lemma blank_line_kept :
  ~ (forall raw,
       In raw (split_on 10 (strip_patterns ascii_data spaced_report)) ->
       (length (words ascii_data (strip ascii_data raw)) <= 2)%nat ->
       (length (strip ascii_data raw) < 15)%nat ->
       ~ In (strip ascii_data raw)
            (split_on 10 (_filter_content ascii_data spaced_report))).
Proof.
  intros H. apply (H []).
  - vm_compute. tauto.
  - vm_compute. lia.
  - vm_compute. lia.
  - vm_compute. tauto.
Qed.

End TextFacts.

(** ** The crawler *)

Module CrawlerFacts.
Import Crawler.

Section Facts.

Variable max_depth : Z.
Variable num_pdfs : Z.
Variable pdfs_of : url -> list url.
Variable links_of : url -> list url.
Variable base_url : url.

Local Abbreviation step := (step max_depth pdfs_of links_of base_url).
Local Abbreviation run := (run max_depth pdfs_of links_of base_url).
Local Abbreviation crawl := (crawl max_depth pdfs_of links_of).
Local Abbreviation queue_cost := (queue_cost max_depth links_of).
Local Abbreviation entry_cost := (entry_cost max_depth links_of).
Local Abbreviation internal_links := (internal_links links_of).
Local Abbreviation depth_ok := (depth_ok max_depth).
Local Abbreviation step_case := (step_case max_depth pdfs_of links_of base_url).
Local Abbreviation sightings := (sightings pdfs_of).
Local Abbreviation pdfs_ok := (pdfs_ok pdfs_of).
Local Abbreviation _discover_pdf_links :=
  (_discover_pdf_links max_depth num_pdfs pdfs_of links_of).

Lemma step_cases (st : crawl_state) : step_case st (step st).
Proof.
  unfold Crawler.step. destruct (queue st) as [|[u d] q] eqn:Q.
  - apply step_empty. assumption.
  - destruct (mem u (visited st)) eqn:M; simpl.
    + apply step_skip; [assumption | left; apply mem_In; assumption].
    + apply mem_false in M. destruct (d >? max_depth) eqn:G.
      * apply step_skip; [assumption | right; lia].
      * destruct (fold_left note_pdf (pdfs_of u) (seen_pdfs st, pdf_links st))
          as [seen links] eqn:F.
        destruct (d <? max_depth) eqn:L.
        -- apply step_expand; [assumption | assumption | lia | assumption].
        -- apply step_leaf; [assumption | assumption | lia | assumption].
Qed.

(** Case analysis on the iteration that starts in [st]. *)
Ltac step_analysis st :=
  destruct (step_cases st)
    as [E | u d q E Hskip
        | u d q seen links E Hu Hdepth F new | u d q seen links E Hu Hdepth F].

(** A property kept by every iteration holds throughout the loop. *)
Lemma run_invariant (P : crawl_state -> Prop) :
  (forall st, P st -> P (step st)) ->
  forall fuel st, P st -> P (run fuel st).
Proof.
  intros Hstep. induction fuel as [|fuel IH]; intros st H; simpl.
  - assumption.
  - destruct (queue st); [assumption | apply IH, Hstep, H].
Qed.

(** *** Termination *)

Lemma entry_cost_pos (e : url * Z) : (1 <= entry_cost e)%nat.
Proof.
  unfold Crawler.entry_cost. destruct (snd e >? max_depth); [lia|].
  destruct (Z.to_nat (max_depth - snd e)); simpl; lia.
Qed.

Lemma queue_cost_app (q1 q2 : list (url * Z)) :
  queue_cost (q1 ++ q2) = (queue_cost q1 + queue_cost q2)%nat.
Proof.
  unfold Crawler.queue_cost. rewrite map_app, list_sum_app. reflexivity.
Qed.

Lemma step_cost (st : crawl_state) :
  queue st <> [] ->
  (queue_cost (queue (step st)) < queue_cost (queue st))%nat.
Proof.
  intros Hq. step_analysis st.
  - contradiction.
  - rewrite E. simpl. unfold Crawler.queue_cost at 2. simpl.
    pose proof (entry_cost_pos (u, d)). unfold Crawler.queue_cost. lia.
  - rewrite E. simpl. rewrite queue_cost_app.
    unfold Crawler.queue_cost at 3. simpl. fold (queue_cost q).
    enough (queue_cost (map (fun l => (l, (d + 1)%Z)) new) < entry_cost (u, d))%nat by lia.
    unfold Crawler.entry_cost. simpl.
    destruct (d >? max_depth) eqn:G; [lia|].
    replace (Z.to_nat (max_depth - d)) with (S (Z.to_nat (max_depth - (d + 1)))) by lia.
    simpl. unfold Crawler.queue_cost. rewrite map_map.
    apply Nat.lt_succ_r.
    etransitivity; [| apply (list_sum_filter_le _
       (fun link => contains base_url link && negb (mem link (u :: visited st))))].
    fold (internal_links base_url (u :: visited st) u). fold new.
    apply Nat.eq_le_incl. f_equal. apply map_ext. intros l.
    unfold Crawler.entry_cost. simpl.
    destruct (d + 1 >? max_depth) eqn:G'; [lia | reflexivity].
  - rewrite E. simpl. unfold Crawler.queue_cost at 2. simpl.
    pose proof (entry_cost_pos (u, d)). unfold Crawler.queue_cost. lia.
Qed.

Lemma run_terminates (fuel : nat) (st : crawl_state) :
  (queue_cost (queue st) <= fuel)%nat -> queue (run fuel st) = [].
Proof.
  revert st. induction fuel as [|fuel IH]; intros st H; simpl.
  - destruct (queue st) as [|e q] eqn:Q; [reflexivity|].
    unfold Crawler.queue_cost in H. simpl in H.
    pose proof (entry_cost_pos e). lia.
  - destruct (queue st) as [|e q] eqn:Q; [assumption|].
    apply IH. assert (Hne : queue st <> []) by congruence.
    pose proof (step_cost st Hne). rewrite Q in H0. lia.
Qed.

(** The loop of [_discover_pdf_links] exits: the queue is empty in the
    state [crawl] returns. *)
Lemma crawl_terminates : queue (crawl base_url) = [].
Proof.
  unfold Crawler.crawl. apply run_terminates. simpl. lia.
Qed.

(** Once the queue is empty, further iterations change nothing. *)
Lemma run_done (fuel : nat) (st : crawl_state) :
  queue st = [] -> run fuel st = st.
Proof.
  intros H. destruct fuel; simpl; [| rewrite H]; reflexivity.
Qed.

Lemma run_add (n m : nat) (st : crawl_state) :
  run (n + m) st = run m (run n st).
Proof.
  revert st. induction n as [|n IH]; intros st; simpl; [reflexivity|].
  destruct (queue st) eqn:Q; [| apply IH].
  symmetry. apply run_done. assumption.
Qed.

(** Any larger bound on the number of iterations gives the same state. *)
Lemma crawl_fuel_irrelevant (extra : nat) :
  run (queue_cost [(base_url, 0)] + extra) (init base_url) = crawl base_url.
Proof.
  rewrite run_add. apply run_done. apply crawl_terminates.
Qed.

(** *** Depth cutoff *)

Lemma depth_ok_step (st : crawl_state) :
  depth_ok (trace st) -> depth_ok (trace (step st)).
Proof.
  intros H.
  assert (Hold : forall tr' e, In e (trace st) ->
            match e with
            | Skipped _ _ => True
            | FetchedPdfs _ d => d <= max_depth
            | FetchedLinks _ d => d < max_depth
            | Enqueued from _ d' =>
                exists d, d' = d + 1 /\ d < max_depth /\
                          In (FetchedLinks from d) (trace st ++ tr')
            end).
  { intros tr' e He. specialize (H e He). destruct e; try assumption.
    destruct H as (d0 & ? & ? & ?). exists d0. repeat split; try assumption.
    apply in_or_app. left; assumption. }
  step_analysis st;
    [assumption | | |]; simpl; intros e He; apply in_app_or in He;
    destruct He as [He | He]; try (apply Hold; assumption).
  - destruct He as [<- | []]. exact I.
  - destruct He as [<- | [<- | He]]; [lia | assumption |].
    apply in_map_iff in He. destruct He as (l & <- & _).
    exists d. repeat split; [assumption|].
    apply in_or_app. right. right. left. reflexivity.
  - destruct He as [<- | []]. lia.
Qed.

Lemma depth_ok_run (fuel : nat) : depth_ok (trace (run fuel (init base_url))).
Proof.
  apply run_invariant with (P := fun st => depth_ok (trace st)).
  - apply depth_ok_step.
  - intros e [].
Qed.

(** C1.  Depth cutoff: at every point of the crawl, each page that was
    fetched, for its PDF links or for its outgoing links, has a depth of
    at most [max_depth]; each link was enqueued at depth [d + 1] while
    expanding a page of depth [d < max_depth]; and an iteration that
    dequeues a pair whose depth exceeds [max_depth] only drops it.  This
    holds for every [max_depth], so in particular for [max_depth >= 0]. *)
Theorem depth_cutoff (fuel : nat) :
  let tr := trace (run fuel (init base_url)) in
  (forall u d, In (FetchedPdfs u d) tr \/ In (FetchedLinks u d) tr ->
               d <= max_depth) /\
  (forall from l d', In (Enqueued from l d') tr ->
     exists d, d' = d + 1 /\ d < max_depth /\ In (FetchedLinks from d) tr) /\
  (forall st u d q, queue st = (u, d) :: q -> d > max_depth ->
     step st = mk_state (visited st) (pdf_links st) (seen_pdfs st) q
                        (trace st ++ [Skipped u d])).
Proof.
  intros tr. pose proof (depth_ok_run fuel) as H. fold tr in H.
  split; [| split].
  - intros u d [Hin | Hin]; specialize (H _ Hin); simpl in H; lia.
  - intros from l d' Hin. exact (H _ Hin).
  - intros st u d q Q Hd. unfold Crawler.step. rewrite Q.
    replace (d >? max_depth) with true by lia.
    rewrite orb_true_r. reflexivity.
Qed.

(** *** The visited set *)

Lemma processed_app (t1 t2 : list event) :
  processed (t1 ++ t2) = processed t1 ++ processed t2.
Proof. apply flat_map_app. Qed.

Lemma expanded_app (t1 t2 : list event) :
  expanded (t1 ++ t2) = expanded t1 ++ expanded t2.
Proof. apply flat_map_app. Qed.

Lemma dequeued_app (t1 t2 : list event) :
  dequeued (t1 ++ t2) = dequeued t1 ++ dequeued t2.
Proof. apply flat_map_app. Qed.

Lemma enqueued_silent (u : url) (d : Z) (ls : list url) :
  processed (map (fun l => Enqueued u l d) ls) = [] /\
  expanded (map (fun l => Enqueued u l d) ls) = [] /\
  dequeued (map (fun l => Enqueued u l d) ls) = [].
Proof.
  induction ls as [|l ls IH]; simpl; [auto | exact IH].
Qed.

(** How each projection of the trace grows in one iteration. *)
Ltac trace_simpl :=
  simpl trace; simpl queue; simpl visited; simpl pdf_links; simpl seen_pdfs;
  rewrite ?processed_app, ?expanded_app, ?dequeued_app; simpl;
  rewrite ?(proj1 (enqueued_silent _ _ _)),
          ?(proj1 (proj2 (enqueued_silent _ _ _))),
          ?(proj2 (proj2 (enqueued_silent _ _ _)));
  rewrite ?app_nil_r.

Lemma NoDup_snoc {A : Type} (l : list A) (x : A) :
  NoDup l -> ~ In x l -> NoDup (l ++ [x]).
Proof.
  induction 1 as [|y l Hy Hl IH]; intros Hx; simpl.
  - constructor; [intros [] | constructor].
  - constructor.
    + intros Hin. apply in_app_or in Hin. destruct Hin as [Hin | [<- | []]].
      * contradiction.
      * apply Hx. left; reflexivity.
    + apply IH. intros Hin. apply Hx. right; assumption.
Qed.

Lemma visited_ok_step (st : crawl_state) :
  visited_ok st -> visited_ok (step st).
Proof.
  intros (Hv & Hp & He & Hsub).
  step_analysis st;
    [repeat split; assumption | | |]; unfold visited_ok; trace_simpl.
  - repeat split; assumption.
  - assert (Hu' : ~ In u (map fst (processed (trace st)))).
    { rewrite in_rev, <- Hv. assumption. }
    rewrite !map_app, rev_app_distr. simpl. repeat split.
    + congruence.
    + apply NoDup_snoc; assumption.
    + apply NoDup_snoc; [assumption | intros Hin; apply Hu, Hsub, Hin].
    + intros v Hin. apply in_app_or in Hin. destruct Hin as [Hin | [<- | []]];
        [right; apply Hsub, Hin | left; reflexivity].
  - assert (Hu' : ~ In u (map fst (processed (trace st)))).
    { rewrite in_rev, <- Hv. assumption. }
    rewrite !map_app, rev_app_distr. simpl. repeat split.
    + congruence.
    + apply NoDup_snoc; assumption.
    + assumption.
    + intros v Hin. right. apply Hsub, Hin.
Qed.

Lemma visited_ok_run (fuel : nat) : visited_ok (run fuel (init base_url)).
Proof.
  apply run_invariant; [apply visited_ok_step|].
  repeat split; simpl; try constructor. intros u [].
Qed.

(** C3.  Visited set: at every point of the crawl, no URL has been fetched
    twice, neither for its PDF links nor for its outgoing links, however
    often it was enqueued; a dequeued URL that is already in the visited
    set is dropped without a request. *)
Theorem no_revisit (fuel : nat) :
  let tr := trace (run fuel (init base_url)) in
  NoDup (map fst (processed tr)) /\
  NoDup (map fst (expanded tr)) /\
  (forall st u d q, queue st = (u, d) :: q -> In u (visited st) ->
     step st = mk_state (visited st) (pdf_links st) (seen_pdfs st) q
                        (trace st ++ [Skipped u d])).
Proof.
  intros tr. destruct (visited_ok_run fuel) as (_ & Hp & He & _).
  split; [exact Hp | split; [exact He |]].
  intros st u d q Q Hin. unfold Crawler.step. rewrite Q.
  apply mem_In in Hin. rewrite Hin. reflexivity.
Qed.

(** *** Breadth-first order *)

Lemma depths_of_new (d : Z) (ls : list url) :
  map snd (map (fun l : url => (l, d)) ls) = repeat d (length ls).
Proof.
  induction ls as [|l ls IH]; simpl; [reflexivity | f_equal; exact IH].
Qed.

Lemma sorted_enqueue (hist waiting : list Z) (d : Z) (n : nat) :
  StronglySorted Z.le (hist ++ d :: waiting) ->
  (forall d', In d' waiting -> d' <= d + 1) ->
  StronglySorted Z.le ((hist ++ [d]) ++ waiting ++ repeat (d + 1) n).
Proof.
  intros Hs Hb. rewrite <- app_assoc. simpl.
  replace (hist ++ d :: waiting ++ repeat (d + 1) n)
    with ((hist ++ d :: waiting) ++ repeat (d + 1) n)
    by (rewrite <- app_assoc; reflexivity).
  apply StronglySorted_app_const; [assumption|].
  apply Forall_forall. intros y Hy. apply in_app_or in Hy.
  destruct Hy as [Hy | [<- | Hy]].
  - pose proof (StronglySorted_app_le _ _ Hs y d Hy (or_introl eq_refl)). lia.
  - lia.
  - apply Hb; assumption.
Qed.

Lemma bfs_ok_step (st : crawl_state) : bfs_ok st -> bfs_ok (step st).
Proof.
  intros (Hd & Hp & Hb).
  step_analysis st;
    [repeat split; assumption | | |]; unfold bfs_ok; trace_simpl;
    rewrite E in Hd, Hp, Hb; simpl in Hd, Hp, Hb.
  - repeat split.
    + rewrite map_app, <- app_assoc. exact Hd.
    + apply StronglySorted_app_remove in Hp. exact Hp.
    + intros a b Ha Hb'. apply Hb; right; assumption.
  - assert (Hq : forall d', In d' (map snd q) -> d' <= d + 1).
    { intros d' Hd'. apply Hb; [left; reflexivity | right; assumption]. }
    rewrite !map_app, depths_of_new. simpl. repeat split.
    + apply sorted_enqueue; assumption.
    + apply sorted_enqueue; assumption.
    + intros a b Ha Hb'.
      assert (Hlo : d <= a).
      { apply in_app_or in Ha. destruct Ha as [Ha | Ha].
        - apply StronglySorted_app_inv_r in Hp.
          inversion Hp as [|? ? _ Hall]; subst.
          rewrite Forall_forall in Hall. apply Hall; assumption.
        - apply repeat_spec in Ha. lia. }
      apply in_app_or in Hb'. destruct Hb' as [Hb' | Hb'].
      * specialize (Hq _ Hb'). lia.
      * apply repeat_spec in Hb'. lia.
  - repeat split.
    + rewrite !map_app, <- app_assoc. exact Hd.
    + rewrite !map_app, <- app_assoc. exact Hp.
    + intros a b Ha Hb'. apply Hb; right; assumption.
Qed.

Lemma bfs_ok_run (fuel : nat) : bfs_ok (run fuel (init base_url)).
Proof.
  apply run_invariant; [apply bfs_ok_step|].
  unfold bfs_ok. simpl. repeat split; try (repeat constructor).
  intros d d' [<- | []] [<- | []]. lia.
Qed.

(** C4.  Breadth-first order: at every point of the crawl, the depths of
    the pairs dequeued so far, and of those among them that were
    processed, are in nondecreasing order; hence a page processed later
    than another is not shallower, and every processed page of depth [d]
    comes before every processed page of depth [d + 1]. *)
Theorem breadth_first_order (fuel : nat) :
  let tr := trace (run fuel (init base_url)) in
  StronglySorted Z.le (map snd (dequeued tr)) /\
  StronglySorted Z.le (map snd (processed tr)) /\
  (forall i j u d u' d',
     nth_error (processed tr) i = Some (u, d) ->
     nth_error (processed tr) j = Some (u', d') ->
     d < d' -> (i < j)%nat).
Proof.
  intros tr. destruct (bfs_ok_run fuel) as (Hd & Hp & _). fold tr in Hd, Hp.
  apply StronglySorted_app_inv_l in Hd. apply StronglySorted_app_inv_l in Hp.
  split; [exact Hd | split; [exact Hp |]].
  intros i j u d u' d' Hi Hj Hlt.
  destruct (Nat.lt_ge_cases i j) as [|Hge]; [assumption | exfalso].
  assert (d' <= d); [| lia].
  apply (StronglySorted_nth _ Hp j i); [assumption | |];
    rewrite nth_error_map; [rewrite Hj | rewrite Hi]; reflexivity.
Qed.

(** *** The list of PDF links *)

Lemma first_occurrences_In (l : list url) (x : url) :
  In x (first_occurrences l) <-> In x l.
Proof.
  induction l as [|y l IH]; simpl; [tauto|].
  rewrite filter_In, IH, negb_true_iff.
  destruct (str_eqb y x) eqn:E.
  - apply str_eqb_eq in E. subst. split; [tauto | intros _; left; reflexivity].
  - split; [tauto|]. intros [-> | H]; [left; reflexivity | right; tauto].
Qed.

Lemma first_occurrences_NoDup (l : list url) : NoDup (first_occurrences l).
Proof.
  induction l as [|y l IH]; simpl; constructor.
  - rewrite filter_In, negb_true_iff. intros [_ E].
    assert (str_eqb y y = true) by (apply str_eqb_eq; reflexivity). congruence.
  - apply NoDup_filter. exact IH.
Qed.

Lemma first_occurrences_snoc (l : list url) (x : url) :
  first_occurrences (l ++ [x]) =
  if mem x l then first_occurrences l else first_occurrences l ++ [x].
Proof.
  induction l as [|y l IH]; simpl; [reflexivity|].
  rewrite IH. destruct (str_eqb x y) eqn:E; simpl.
  - apply str_eqb_eq in E. subst y. destruct (mem x l); [reflexivity|].
    rewrite filter_app. simpl.
    replace (str_eqb x x) with true by (symmetry; apply str_eqb_eq; reflexivity).
    simpl. rewrite app_nil_r. reflexivity.
  - destruct (mem x l); [reflexivity|].
    rewrite filter_app. simpl.
    assert (E' : str_eqb y x = false).
    { destruct (str_eqb y x) eqn:E'; [|reflexivity].
      apply str_eqb_eq in E'. subst.
      assert (str_eqb x x = true) by (apply str_eqb_eq; reflexivity). congruence. }
    rewrite E'. reflexivity.
Qed.

Lemma note_pdf_fold (l s seen links : list url) :
  (forall x, In x seen <-> In x links) ->
  links = first_occurrences s ->
  exists seen',
    fold_left note_pdf l (seen, links) = (seen', first_occurrences (s ++ l)) /\
    (forall x, In x seen' <-> In x (first_occurrences (s ++ l))).
Proof.
  revert s seen links. induction l as [|x l IH]; intros s seen links Hseen Hl.
  - exists seen. rewrite app_nil_r, <- Hl. split; [reflexivity | assumption].
  - simpl fold_left.
    replace (s ++ x :: l) with ((s ++ [x]) ++ l)
      by (rewrite <- app_assoc; reflexivity).
    assert (Hmem : mem x seen = mem x s).
    { destruct (mem x s) eqn:M.
      - apply mem_In. apply Hseen. rewrite Hl. apply first_occurrences_In.
        apply mem_In. assumption.
      - apply mem_false. apply mem_false in M. intros Hin. apply M.
        apply first_occurrences_In. rewrite <- Hl. apply Hseen. assumption. }
    rewrite Hmem.
    pose proof (first_occurrences_snoc s x) as Hsn.
    destruct (mem x s) eqn:M.
    + apply IH; [assumption | congruence].
    + apply IH; [| congruence].
      intros y. simpl. rewrite in_app_iff, Hseen. simpl. tauto.
Qed.

Lemma sightings_app (t1 t2 : list event) :
  sightings (t1 ++ t2) = sightings t1 ++ sightings t2.
Proof.
  unfold Crawler.sightings. rewrite processed_app, map_app, flat_map_app.
  reflexivity.
Qed.

Lemma sightings_page (u : url) (d : Z) (ls : list url) (d' : Z) :
  sightings [Skipped u d] = [] /\
  sightings [FetchedPdfs u d] = pdfs_of u /\
  sightings (FetchedPdfs u d :: FetchedLinks u d
               :: map (fun l => Enqueued u l d') ls) = pdfs_of u.
Proof.
  unfold Crawler.sightings. simpl.
  rewrite (proj1 (enqueued_silent _ _ _)). simpl.
  rewrite app_nil_r. auto.
Qed.

Lemma pdfs_ok_step (st : crawl_state) : pdfs_ok st -> pdfs_ok (step st).
Proof.
  intros (Hl & Hseen).
  step_analysis st;
    [split; assumption | | |]; unfold pdfs_ok; simpl;
    rewrite sightings_app.
  - rewrite (proj1 (sightings_page u d [] 0)), app_nil_r. split; assumption.
  - destruct (note_pdf_fold (pdfs_of u) _ _ _ Hseen Hl) as (seen' & F' & Hs').
    rewrite F in F'. injection F' as -> ->.
    rewrite (proj2 (proj2 (sightings_page u d new (d + 1)))).
    split; [reflexivity | assumption].
  - destruct (note_pdf_fold (pdfs_of u) _ _ _ Hseen Hl) as (seen' & F' & Hs').
    rewrite F in F'. injection F' as -> ->.
    rewrite (proj1 (proj2 (sightings_page u d [] 0))).
    split; [reflexivity | assumption].
Qed.

Lemma pdfs_ok_run (fuel : nat) : pdfs_ok (run fuel (init base_url)).
Proof.
  apply run_invariant; [apply pdfs_ok_step|].
  split; simpl; [reflexivity | tauto].
Qed.

(** Whatever the limit, the result is a duplicate-free prefix of the
    distinct sightings in first-discovery order. *)
Lemma discovered_prefix :
  NoDup (_discover_pdf_links base_url) /\
  exists k, _discover_pdf_links base_url =
            firstn k (first_occurrences (sightings (trace (crawl base_url)))).
Proof.
  unfold Crawler._discover_pdf_links.
  destruct (pdfs_ok_run (Crawler.queue_cost max_depth links_of [(base_url, 0)]))
    as [Hl _].
  fold (crawl base_url) in Hl. rewrite Hl.
  destruct (slice_to_prefix num_pdfs
              (first_occurrences (sightings (trace (crawl base_url))))) as [k Hk].
  rewrite Hk. split; [| exists k; reflexivity].
  apply NoDup_firstn, first_occurrences_NoDup.
Qed.

(** C2 (amended).  Link-count bound: for a limit [num_pdfs >= 0], the
    crawl ends and the list returned by [_discover_pdf_links] has at most
    [num_pdfs] elements. *)
Theorem link_count_bound :
  0 <= num_pdfs ->
  queue (crawl base_url) = [] /\
  Z.of_nat (length (_discover_pdf_links base_url)) <= num_pdfs.
Proof.
  intros H. split; [apply crawl_terminates|].
  unfold Crawler._discover_pdf_links.
  rewrite slice_to_nonneg by assumption.
  pose proof (firstn_le_length (Z.to_nat num_pdfs) (pdf_links (crawl base_url))).
  lia.
Qed.

(** C10 (amended).  For a limit [num_pdfs >= 0], the crawl ends, and the
    list returned by [_discover_pdf_links] has no duplicates and is
    exactly the first [num_pdfs] distinct PDF links sighted by the crawl,
    each at the position of its first sighting. *)
Theorem first_discovery_order :
  0 <= num_pdfs ->
  queue (crawl base_url) = [] /\
  NoDup (_discover_pdf_links base_url) /\
  _discover_pdf_links base_url =
  firstn (Z.to_nat num_pdfs)
         (first_occurrences (sightings (trace (crawl base_url)))).
Proof.
  intros H. split; [apply crawl_terminates|].
  split; [apply discovered_prefix|].
  unfold Crawler._discover_pdf_links.
  destruct (pdfs_ok_run (Crawler.queue_cost max_depth links_of [(base_url, 0)]))
    as [Hl _].
  fold (crawl base_url) in Hl. rewrite Hl.
  apply slice_to_nonneg. assumption.
Qed.

End Facts.

(** *** The crawl on the example site *)

Example demo_crawl :
  _discover_pdf_links 1 5 demo_pdfs demo_links site = [pdf_a; pdf_b; pdf_c] /\
  dequeued (trace (crawl 1 demo_pdfs demo_links site)) =
    [(site, 0); (page1, 1); (page2, 1); (page1, 1)] /\
  processed (trace (crawl 1 demo_pdfs demo_links site)) =
    [(site, 0); (page1, 1); (page2, 1)].
Proof. vm_compute. auto. Qed.

Lemma link_count_bound_witness :
  0 <= 2 /\
  queue (crawl 1 demo_pdfs demo_links site) = [] /\
  Z.of_nat (length (_discover_pdf_links 1 2 demo_pdfs demo_links site)) <= 2.
Proof.
  split; [lia | apply (link_count_bound 1 2 demo_pdfs demo_links site); lia].
Defined.

(** With a negative limit the slice [pdf_links[:num_pdfs]] counts from the
    end: the crawl returns all links but the last, not "at most -1". *)
Lemma link_count_negative_limit :
  _discover_pdf_links 0 (-1) demo_pdfs demo_links site = [pdf_a] /\
  ~ (Z.of_nat (length (_discover_pdf_links 0 (-1) demo_pdfs demo_links site))
     <= -1).
Proof. split; [vm_compute; reflexivity | vm_compute; congruence]. Qed.

Lemma first_discovery_order_witness :
  0 <= 2 /\
  queue (crawl 1 demo_pdfs demo_links site) = [] /\
  NoDup (_discover_pdf_links 1 2 demo_pdfs demo_links site) /\
  _discover_pdf_links 1 2 demo_pdfs demo_links site =
  firstn (Z.to_nat 2)
    (first_occurrences
       (sightings demo_pdfs (trace (crawl 1 demo_pdfs demo_links site)))).
Proof.
  split; [lia | apply (first_discovery_order 1 2 demo_pdfs demo_links site); lia].
Defined.

(** With a negative limit the result is not the first [num_pdfs] distinct
    links: of the two links sighted, the first one is returned. *)
Lemma first_discovery_negative_limit :
  let found :=
    first_occurrences
      (sightings demo_pdfs (trace (crawl 0 demo_pdfs demo_links site))) in
  let result := _discover_pdf_links 0 (-1) demo_pdfs demo_links site in
  found = [pdf_a; pdf_b] /\ result = [pdf_a] /\
  result <> firstn (Z.to_nat (-1)) found /\
  Z.of_nat (length result) <> Z.min (-1) (Z.of_nat (length found)).
Proof. vm_compute. repeat split; congruence. Qed.

End CrawlerFacts.

(** ** What the crawl reaches *)

Module CrawlerReach.
Import Crawler CrawlerFacts.

Section Reach.

Variable max_depth : Z.
Variable num_pdfs : Z.
Variable pdfs_of : url -> list url.
Variable links_of : url -> list url.
Variable base_url : url.

Local Abbreviation step := (step max_depth pdfs_of links_of base_url).
Local Abbreviation run := (run max_depth pdfs_of links_of base_url).
Local Abbreviation crawl := (crawl max_depth pdfs_of links_of).
Local Abbreviation reach := (reach links_of base_url).
Local Abbreviation reach_ok := (reach_ok links_of base_url).
Local Abbreviation complete_ok := (complete_ok max_depth links_of base_url).
Local Abbreviation sightings := (sightings pdfs_of).
Local Abbreviation _discover_pdf_links :=
  (_discover_pdf_links max_depth num_pdfs pdfs_of links_of).

Ltac step_analysis st :=
  destruct (step_cases max_depth pdfs_of links_of base_url st)
    as [E | u0 d0 q E Hskip
        | u0 d0 q seen links E Hu Hdepth F new
        | u0 d0 q seen links E Hu Hdepth F].

Lemma internal_links_In (vis : list url) (u l : url) :
  In l (internal_links links_of base_url vis u) <->
  In l (links_of u) /\ contains base_url l = true /\ ~ In l vis.
Proof.
  unfold internal_links. rewrite filter_In, andb_true_iff, negb_true_iff.
  rewrite mem_false. tauto.
Qed.

Lemma dequeued_step (st : crawl_state) (u : url) (d : Z) :
  In (u, d) (dequeued (trace (step st))) ->
  In (u, d) (dequeued (trace st)) \/ In (u, d) (queue st).
Proof.
  step_analysis st; simpl; rewrite ?dequeued_app; simpl;
    rewrite ?(proj2 (proj2 (enqueued_silent _ _ _))), ?app_nil_r; intros H;
    try (left; exact H); apply in_app_or in H;
    (destruct H as [H | [H | []]]; [left; exact H | right]);
    rewrite E; left; exact H.
Qed.

(** *** Every page taken from the queue is on the site *)

Lemma reach_ok_step (st : crawl_state) : reach_ok st -> reach_ok (step st).
Proof.
  intros [Hq Hd]. split.
  - intros u d Hin.
    step_analysis st; simpl in Hin.
    + apply Hq. exact Hin.
    + apply Hq. rewrite E. right. exact Hin.
    + apply in_app_or in Hin. destruct Hin as [Hin | Hin].
      * apply Hq. rewrite E. right. exact Hin.
      * apply in_map_iff in Hin. destruct Hin as (l & [= <- <-] & Hl).
        apply internal_links_In in Hl. destruct Hl as (Hl & Hc & _).
        apply (reach_link links_of base_url d0 u0); [| assumption | assumption].
        apply Hq. rewrite E. left. reflexivity.
    + apply Hq. rewrite E. right. exact Hin.
  - intros u d Hin. apply dequeued_step in Hin.
    destruct Hin as [Hin | Hin]; [apply Hd | apply Hq]; exact Hin.
Qed.

Lemma reach_ok_run (fuel : nat) : reach_ok (run fuel (init base_url)).
Proof.
  apply run_invariant; [apply reach_ok_step|].
  split; simpl.
  - intros u d [[= <- <-] | []]. constructor.
  - intros u d [].
Qed.

Lemma processed_dequeued (tr : list event) (u : url) (d : Z) :
  In (u, d) (processed tr) -> In (u, d) (dequeued tr).
Proof.
  unfold processed, dequeued. rewrite !in_flat_map.
  intros (e & He & Hin). exists e. split; [assumption|].
  destruct e; simpl in *; tauto.
Qed.

Lemma reach_on_site (n : Z) (u : url) :
  reach n u -> 0 <= n /\ (u = base_url \/ contains base_url u = true).
Proof.
  induction 1 as [|n u l _ [IH _] _ Hc]; [split; [lia | left; reflexivity]|].
  split; [lia | right; exact Hc].
Qed.

(** *** Every page within reach is processed *)

Lemma visited_processed (st : crawl_state) (l : url) :
  visited_ok st -> In l (visited st) ->
  exists d, In (l, d) (processed (trace st)).
Proof.
  intros (Hv & _) Hin. rewrite Hv, <- in_rev in Hin.
  apply in_map_iff in Hin. destruct Hin as ([l' d] & <- & Hin).
  exists d. exact Hin.
Qed.

Lemma processed_le_queue (st : crawl_state) (l x : url) (d' d : Z) :
  bfs_ok st -> In (l, d') (processed (trace st)) -> In (x, d) (queue st) ->
  d' <= d.
Proof.
  intros (_ & Hs & _) Hp Hq.
  apply (StronglySorted_app_le _ _ Hs).
  - apply in_map_iff. exists (l, d'). split; [reflexivity | assumption].
  - apply in_map_iff. exists (x, d). split; [reflexivity | assumption].
Qed.

Lemma complete_ok_step (st : crawl_state) :
  visited_ok st -> bfs_ok st -> complete_ok st -> complete_ok (step st).
Proof.
  intros Hv Hs [Ha Hb].
  (* a processed page keeps its links accounted for when the head of the
     queue is processed *)
  assert (Hkeep : forall u0 d0 q tail u d l,
            queue st = (u0, d0) :: q ->
            In (u, d) (processed (trace st)) -> d < max_depth ->
            In l (links_of u) -> contains base_url l = true ->
            (exists d', d' <= d + 1 /\
                        In (l, d') (processed (trace st) ++ [(u0, d0)])) \/
            In (l, d + 1) (q ++ tail)).
  { intros u0 d0 q tail u d l E Hp Hd Hl Hc.
    destruct (Hb u d Hp Hd l Hl Hc) as [(d' & Hd' & Hin) | Hin].
    - left. exists d'. split; [assumption | apply in_or_app; left; assumption].
    - rewrite E in Hin. destruct Hin as [[= -> ->] | Hin].
      + left. exists (d + 1). split; [lia|].
        apply in_or_app. right. left. reflexivity.
      + right. apply in_or_app. left. assumption. }
  step_analysis st.
  - split; assumption.
  - split; simpl; rewrite processed_app; simpl; rewrite app_nil_r.
    + intros H0. destruct (Ha H0) as [H | H]; [left; exact H|].
      exfalso. rewrite H in E. simpl in E. injection E as <- <- <-.
      rewrite H in Hskip. simpl in Hskip. destruct Hskip as [[] | Hgt]. lia.
    + intros u d Hp Hd l Hl Hc.
      destruct (Hb u d Hp Hd l Hl Hc) as [(d' & Hd' & Hin) | Hin].
      * left. exists d'. auto.
      * pose proof Hin as Hin'. rewrite E in Hin'.
        destruct Hin' as [[= -> ->] | Hin']; [| right; exact Hin'].
        destruct Hskip as [Hvis | Hgt]; [| lia].
        destruct (visited_processed st l Hv Hvis) as (d' & Hd').
        left. exists d'. split; [| assumption].
        apply (processed_le_queue st l l d' (d + 1) Hs Hd' Hin).
  - split; simpl; rewrite processed_app; simpl;
      rewrite (proj1 (enqueued_silent _ _ _)).
    + intros H0. destruct (Ha H0) as [H | H].
      * left. apply in_or_app. left. exact H.
      * left. rewrite H in E. simpl in E. injection E as <- <- <-.
        apply in_or_app. right. left. reflexivity.
    + intros u d Hp Hd l Hl Hc. apply in_app_or in Hp.
      destruct Hp as [Hp | [[= <- <-] | []]].
      * apply (Hkeep u0 d0 q _ u d l E Hp Hd Hl Hc).
      * destruct (mem l (u0 :: visited st)) eqn:M.
        -- apply mem_In in M. destruct M as [<- | M].
           ++ left. exists d0. split; [lia|].
              apply in_or_app. right. left. reflexivity.
           ++ destruct (visited_processed st l Hv M) as (d' & Hd').
              left. exists d'. split; [| apply in_or_app; left; assumption].
              assert (d' <= d0); [| lia].
              apply (processed_le_queue st l u0 d' d0 Hs Hd').
              rewrite E. left. reflexivity.
        -- right. apply in_or_app. right. apply in_map_iff. exists l.
           split; [reflexivity|]. apply internal_links_In.
           apply mem_false in M. auto.
  - split; simpl; rewrite processed_app; simpl.
    + intros H0. destruct (Ha H0) as [H | H].
      * left. apply in_or_app. left. exact H.
      * left. rewrite H in E. simpl in E. injection E as <- <- <-.
        apply in_or_app. right. left. reflexivity.
    + intros u d Hp Hd l Hl Hc. apply in_app_or in Hp.
      destruct Hp as [Hp | [[= <- <-] | []]]; [| lia].
      rewrite <- (app_nil_r q).
      apply (Hkeep u0 d0 q [] u d l E Hp Hd Hl Hc).
Qed.

Lemma crawl_invariants (fuel : nat) :
  let st := run fuel (init base_url) in
  visited_ok st /\ bfs_ok st /\ complete_ok st.
Proof.
  apply run_invariant with
    (P := fun st => visited_ok st /\ bfs_ok st /\ complete_ok st).
  - intros st (Hv & Hs & Hc). split; [| split].
    + apply visited_ok_step. exact Hv.
    + apply bfs_ok_step. exact Hs.
    + apply complete_ok_step; assumption.
  - split; [| split].
    + apply (visited_ok_run max_depth pdfs_of links_of base_url 0).
    + apply (bfs_ok_run max_depth pdfs_of links_of base_url 0).
    + split; [intros _; right; reflexivity | intros u d []].
Qed.

Lemma crawl_complete_ok : complete_ok (crawl base_url).
Proof. apply crawl_invariants. Qed.

Lemma reach_processed (n : Z) (u : url) :
  reach n u -> n <= max_depth ->
  exists d, d <= n /\ In (u, d) (processed (trace (crawl base_url))).
Proof.
  destruct crawl_complete_ok as [Ha Hb].
  pose proof (crawl_terminates max_depth pdfs_of links_of base_url) as Hq.
  induction 1 as [|n u l Hr IH Hl Hc]; intros Hn.
  - exists 0. split; [lia|]. destruct (Ha Hn) as [H | H]; [exact H|].
    rewrite H in Hq. discriminate.
  - destruct IH as (d & Hd & Hp); [lia|].
    destruct (Hb u d Hp ltac:(lia) l Hl Hc) as [(d' & Hd' & Hin) | Hin].
    + exists d'. split; [lia | exact Hin].
    + rewrite Hq in Hin. destruct Hin.
Qed.

Lemma processed_depth_unique (tr : list (url * Z)) (u : url) (d d' : Z) :
  NoDup (map fst tr) -> In (u, d) tr -> In (u, d') tr -> d = d'.
Proof.
  induction tr as [|[v e] tr IH]; simpl; intros Hnd H1 H2; [contradiction|].
  inversion Hnd as [|? ? Hv Hnd']; subst.
  assert (Hfst : forall x, In (v, x) tr -> False).
  { intros x Hx. apply Hv. apply in_map_iff. exists (v, x). auto. }
  destruct H1 as [H1 | H1], H2 as [H2 | H2].
  - congruence.
  - injection H1 as -> ->. exfalso. eapply Hfst. eassumption.
  - injection H2 as -> ->. exfalso. eapply Hfst. eassumption.
  - apply IH; assumption.
Qed.

Lemma fetched_on_site_aux (u : url) (d : Z) :
  In (u, d) (processed (trace (crawl base_url))) ->
  reach d u /\ d <= max_depth.
Proof.
  intros Hin. split.
  - apply (proj2 (reach_ok_run
                    (queue_cost max_depth links_of [(base_url, 0)]))).
    apply processed_dequeued. exact Hin.
  - unfold processed in Hin. apply in_flat_map in Hin.
    destruct Hin as (e & He & Hin).
    pose proof (depth_ok_run max_depth pdfs_of links_of base_url
                  (queue_cost max_depth links_of [(base_url, 0)]) e He) as Hd.
    destruct e; simpl in Hin; try contradiction.
    destruct Hin as [[= <- <-] | []]. exact Hd.
Qed.

(** X1.  The loop of [_discover_pdf_links] ends, whatever the web and the
    configuration: after the iterations counted by [queue_cost] the queue
    is empty, and any further iteration leaves the state unchanged. *)
Theorem crawl_total (extra : nat) :
  queue (crawl base_url) = [] /\
  run (queue_cost max_depth links_of [(base_url, 0)] + extra) (init base_url)
  = crawl base_url.
Proof.
  split; [apply crawl_terminates | apply crawl_fuel_irrelevant].
Qed.

(** X2.  The crawl stays on the site: at every point, a page that was
    fetched is the start page or has a URL that contains [base_url]; its
    depth lies between 0 and [max_depth], and the page is that many
    internal links away from the start page. *)
Theorem fetched_on_site (fuel : nat) (u : url) (d : Z) :
  In (u, d) (processed (trace (run fuel (init base_url)))) ->
  reach d u /\ 0 <= d <= max_depth /\
  (u = base_url \/ contains base_url u = true).
Proof.
  intros Hin.
  assert (Hr : reach d u).
  { apply (proj2 (reach_ok_run fuel)). apply processed_dequeued. exact Hin. }
  destruct (reach_on_site d u Hr) as [H0 Hsite].
  split; [exact Hr | split; [split; [exact H0 |] | exact Hsite]].
  unfold processed in Hin. apply in_flat_map in Hin.
  destruct Hin as (e & He & Hin).
  pose proof (depth_ok_run max_depth pdfs_of links_of base_url fuel e He) as Hd.
  destruct e; simpl in Hin; try contradiction.
  destruct Hin as [[= <- <-] | []]. exact Hd.
Qed.

(** X3.  The crawl is complete up to the depth limit: every page that is
    [n <= max_depth] internal links away from the start page is fetched,
    at a depth of at most [n]. *)
Theorem reachable_pages_fetched (n : Z) (u : url) :
  reach n u -> n <= max_depth ->
  exists d, d <= n /\ In (u, d) (processed (trace (crawl base_url))).
Proof. apply reach_processed. Qed.

(** X4.  Pages are fetched at their distance: the depth at which the
    crawl processed a page is the least number of internal links that
    lead to it from the start page. *)
Theorem fetched_at_distance (u : url) (d : Z) :
  In (u, d) (processed (trace (crawl base_url))) ->
  reach d u /\ forall n, reach n u -> d <= n.
Proof.
  intros Hin.
  assert (Hr : reach d u).
  { apply (proj2 (reach_ok_run
                    (queue_cost max_depth links_of [(base_url, 0)]))).
    apply processed_dequeued. exact Hin. }
  split; [exact Hr|]. intros n Hn.
  destruct (Z.le_gt_cases n max_depth) as [Hle | Hgt].
  - destruct (reach_processed n u Hn Hle) as (d' & Hd' & Hin').
    destruct (visited_ok_run max_depth pdfs_of links_of base_url
                (queue_cost max_depth links_of [(base_url, 0)]))
      as (_ & Hnd & _).
    rewrite (processed_depth_unique _ u d d' Hnd Hin Hin'). exact Hd'.
  - unfold processed in Hin. apply in_flat_map in Hin.
    destruct Hin as (e & He & Hin).
    pose proof (depth_ok_run max_depth pdfs_of links_of base_url
                  (queue_cost max_depth links_of [(base_url, 0)]) e He) as Hd.
    destruct e; simpl in Hin; try contradiction.
    destruct Hin as [[= <- <-] | []]. lia.
Qed.

(** *** The PDF links that are returned *)

Lemma sighted_on_processed_page (tr : list event) (x : url) :
  In x (sightings tr) <->
  exists u d, In (u, d) (processed tr) /\ In x (pdfs_of u).
Proof.
  unfold Crawler.sightings. rewrite in_flat_map. split.
  - intros (u & Hu & Hx). apply in_map_iff in Hu.
    destruct Hu as ([u' d] & <- & Hin). exists u', d. auto.
  - intros (u & d & Hin & Hx). exists u. split; [| exact Hx].
    apply in_map_iff. exists (u, d). auto.
Qed.

Lemma crawl_pdf_links :
  pdf_links (crawl base_url) =
  first_occurrences (sightings (trace (crawl base_url))).
Proof.
  apply (pdfs_ok_run max_depth pdfs_of links_of base_url
           (queue_cost max_depth links_of [(base_url, 0)])).
Qed.

Lemma slice_to_In {A : Type} (n : Z) (l : list A) (x : A) :
  In x (slice_to n l) -> In x l.
Proof.
  destruct (slice_to_prefix n l) as [k ->]. intros H.
  rewrite <- (firstn_skipn k l). apply in_or_app. left. exact H.
Qed.

Lemma slice_to_all {A : Type} (n : Z) (l : list A) :
  Z.of_nat (length l) <= n -> slice_to n l = l.
Proof.
  intros H. rewrite slice_to_nonneg by lia. apply firstn_all2. lia.
Qed.

(** X5.  Every link that [_discover_pdf_links] returns is a PDF link of a
    page that the crawl fetched: a page at most [max_depth] internal
    links away from the start page. *)
Theorem returned_pdf_on_fetched_page (x : url) :
  In x (_discover_pdf_links base_url) ->
  exists u d, In (u, d) (processed (trace (crawl base_url))) /\
              In x (pdfs_of u) /\ reach d u /\ d <= max_depth.
Proof.
  intros Hin. unfold Crawler._discover_pdf_links in Hin.
  apply slice_to_In in Hin. rewrite crawl_pdf_links in Hin.
  apply (proj1 (first_occurrences_In pdfs_of links_of base_url _ _)) in Hin.
  apply (proj1 (sighted_on_processed_page _ _)) in Hin.
  destruct Hin as (u & d & Hp & Hx). exists u, d.
  destruct (fetched_on_site_aux u d Hp) as (Hr & Hd).
  repeat split; assumption.
Qed.

(** X6.  When the limit [num_pdfs] does not cut the list, nothing within
    reach is missed: every PDF link of every page at most [max_depth]
    internal links away from the start page is returned. *)
Theorem pdfs_within_reach_returned (n : Z) (u x : url) :
  Z.of_nat (length (first_occurrences (sightings (trace (crawl base_url)))))
    <= num_pdfs ->
  reach n u -> n <= max_depth -> In x (pdfs_of u) ->
  In x (_discover_pdf_links base_url).
Proof.
  intros Hlim Hr Hn Hx. unfold Crawler._discover_pdf_links.
  rewrite crawl_pdf_links, slice_to_all by exact Hlim.
  apply (proj2 (first_occurrences_In pdfs_of links_of base_url _ _)).
  apply (proj2 (sighted_on_processed_page _ _)).
  destruct (reach_processed n u Hr Hn) as (d & _ & Hp).
  exists u, d. auto.
Qed.

(** X7.  The number of links returned, for every limit: the smaller of
    [num_pdfs] and the number of distinct links sighted when
    [num_pdfs >= 0]; that number less [-num_pdfs], but not below zero,
    when [num_pdfs] is negative. *)
Theorem returned_count :
  let found :=
    Z.of_nat (length (first_occurrences (sightings (trace (crawl base_url))))) in
  Z.of_nat (length (_discover_pdf_links base_url)) =
  if 0 <=? num_pdfs then Z.min num_pdfs found
  else Z.max 0 (found + num_pdfs).
Proof.
  intros found. unfold Crawler._discover_pdf_links, slice_to.
  rewrite crawl_pdf_links. fold found.
  destruct (0 <=? num_pdfs) eqn:E; rewrite length_firstn; unfold found; lia.
Qed.

(** *** Shallow limits *)

(** X8.  With a negative [max_depth] the crawl fetches nothing: the start
    page is taken from the queue and dropped, and no link is returned. *)
Theorem negative_depth_fetches_nothing :
  max_depth < 0 ->
  trace (crawl base_url) = [Skipped base_url 0] /\
  _discover_pdf_links base_url = [].
Proof.
  intros H.
  assert (E : crawl base_url = mk_state [] [] [] [] [Skipped base_url 0]).
  { unfold Crawler.crawl, Crawler.queue_cost, Crawler.entry_cost. simpl.
    replace (0 >? max_depth) with true by lia. simpl.
    unfold Crawler.step. simpl.
    replace (0 >? max_depth) with true by lia. reflexivity. }
  unfold Crawler._discover_pdf_links. rewrite E. simpl.
  split; [reflexivity|]. unfold slice_to.
  destruct (0 <=? num_pdfs); apply firstn_nil.
Qed.

(** X9.  With [max_depth = 0] the crawl fetches the start page only, and
    does not look for its links: the result is the slice of the distinct
    PDF links of that page. *)
Theorem depth_zero_single_page :
  max_depth = 0 ->
  trace (crawl base_url) = [FetchedPdfs base_url 0] /\
  _discover_pdf_links base_url =
  slice_to num_pdfs (first_occurrences (pdfs_of base_url)).
Proof.
  intros H.
  assert (E : trace (crawl base_url) = [FetchedPdfs base_url 0]).
  { unfold Crawler.crawl, Crawler.queue_cost, Crawler.entry_cost. simpl.
    replace (0 >? max_depth) with false by lia.
    replace (Z.to_nat (max_depth - 0)) with 0%nat by lia. simpl.
    unfold Crawler.step. simpl.
    replace (0 >? max_depth) with false by lia.
    replace (0 <? max_depth) with false by lia.
    destruct (fold_left note_pdf (pdfs_of base_url) ([], [])). reflexivity. }
  split; [exact E|].
  unfold Crawler._discover_pdf_links. rewrite crawl_pdf_links, E.
  unfold Crawler.sightings. simpl. rewrite app_nil_r. reflexivity.
Qed.

End Reach.

(** *** On the example site *)

Lemma page1_within_reach : reach demo_links site 1 page1.
Proof.
  apply (reach_link demo_links site 0 site page1).
  - constructor.
  - vm_compute. tauto.
  - vm_compute. reflexivity.
Defined.

Lemma fetched_on_site_witness :
  In (page1, 1) (processed (trace (run 1 demo_pdfs demo_links site 3 (init site))))
  /\ reach demo_links site 1 page1 /\ 0 <= 1 <= 1 /\
  (page1 = site \/ contains site page1 = true).
Proof.
  assert (H : In (page1, 1)
                 (processed (trace (run 1 demo_pdfs demo_links site 3 (init site)))))
    by (vm_compute; tauto).
  split; [exact H|].
  exact (fetched_on_site 1 demo_pdfs demo_links site 3 page1 1 H).
Defined.

Lemma reachable_pages_fetched_witness :
  reach demo_links site 1 page1 /\ 1 <= 1 /\
  exists d, d <= 1 /\
            In (page1, d) (processed (trace (crawl 1 demo_pdfs demo_links site))).
Proof.
  assert (H : 1 <= 1) by lia.
  split; [exact page1_within_reach | split; [exact H|]].
  exact (reachable_pages_fetched 1 demo_pdfs demo_links site 1 page1
           page1_within_reach H).
Defined.

Lemma fetched_at_distance_witness :
  In (page1, 1) (processed (trace (crawl 1 demo_pdfs demo_links site))) /\
  reach demo_links site 1 page1 /\
  forall n, reach demo_links site n page1 -> 1 <= n.
Proof.
  assert (H : In (page1, 1)
                 (processed (trace (crawl 1 demo_pdfs demo_links site))))
    by (vm_compute; tauto).
  split; [exact H|].
  exact (fetched_at_distance 1 demo_pdfs demo_links site page1 1 H).
Defined.

Lemma returned_pdf_on_fetched_page_witness :
  In pdf_c (_discover_pdf_links 1 5 demo_pdfs demo_links site) /\
  exists u d,
    In (u, d) (processed (trace (crawl 1 demo_pdfs demo_links site))) /\
    In pdf_c (demo_pdfs u) /\ reach demo_links site d u /\ d <= 1.
Proof.
  assert (H : In pdf_c (_discover_pdf_links 1 5 demo_pdfs demo_links site))
    by (vm_compute; tauto).
  split; [exact H|].
  exact (returned_pdf_on_fetched_page 1 5 demo_pdfs demo_links site pdf_c H).
Defined.

Lemma pdfs_within_reach_returned_witness :
  Z.of_nat (length (first_occurrences
     (sightings demo_pdfs (trace (crawl 1 demo_pdfs demo_links site))))) <= 5 /\
  reach demo_links site 1 page1 /\ 1 <= 1 /\ In pdf_c (demo_pdfs page1) /\
  In pdf_c (_discover_pdf_links 1 5 demo_pdfs demo_links site).
Proof.
  assert (H1 : Z.of_nat (length (first_occurrences
     (sightings demo_pdfs (trace (crawl 1 demo_pdfs demo_links site))))) <= 5)
    by (vm_compute; discriminate).
  assert (H2 : 1 <= 1) by lia.
  assert (H3 : In pdf_c (demo_pdfs page1)) by (vm_compute; tauto).
  repeat (split; [first [exact H1 | exact page1_within_reach | exact H2 | exact H3]|]).
  exact (pdfs_within_reach_returned 1 5 demo_pdfs demo_links site 1 page1 pdf_c
           H1 page1_within_reach H2 H3).
Defined.

Lemma negative_depth_fetches_nothing_witness :
  -1 < 0 /\
  trace (crawl (-1) demo_pdfs demo_links site) = [Skipped site 0] /\
  _discover_pdf_links (-1) 5 demo_pdfs demo_links site = [].
Proof.
  assert (H : -1 < 0) by lia.
  split; [exact H|].
  exact (negative_depth_fetches_nothing (-1) 5 demo_pdfs demo_links site H).
Defined.

Lemma depth_zero_single_page_witness :
  0 = 0 /\
  trace (crawl 0 demo_pdfs demo_links site) = [FetchedPdfs site 0] /\
  _discover_pdf_links 0 5 demo_pdfs demo_links site =
  slice_to 5 (first_occurrences (demo_pdfs site)).
Proof.
  split; [reflexivity|].
  exact (depth_zero_single_page 0 5 demo_pdfs demo_links site eq_refl).
Defined.

End CrawlerReach.

(** ** The pipeline *)

Module ScraperFacts.
Import Regex Text Crawler Scraper.

Section Facts.

Variable U : unicode_data.
Variable max_depth : Z.
Variable num_pdfs : Z.
Variable workers : Z.
Variable pdfs_of : url -> list url.
Variable links_of : url -> list url.
Variable cwd : path.
Variable netloc : pystr -> outcome pystr.
Variable download : url -> option bytes.
Variable pdf_pages : bytes -> option (list pystr).
Variable as_completed : list url -> list url.

Local Abbreviation scrape_website :=
  (scrape_website U max_depth num_pdfs workers pdfs_of links_of cwd netloc
                  download pdf_pages as_completed).
Local Abbreviation discovered :=
  (_discover_pdf_links max_depth num_pdfs pdfs_of links_of).
Local Abbreviation save_text := (save_text U download pdf_pages).

Lemma failed_download_skipped (dir : path) (fs : list fs_event) (iu : nat * url) :
  download (snd iu) = None -> save_text dir fs iu = fs.
Proof.
  intros H. unfold Scraper.save_text, _download_pdf. rewrite H. reflexivity.
Qed.

Lemma failed_extraction_skipped (dir : path) (fs : list fs_event)
  (iu : nat * url) (content : bytes) :
  download (snd iu) = Some content -> pdf_pages content = None ->
  save_text dir fs iu = fs.
Proof.
  intros Hd He. unfold Scraper.save_text, _download_pdf, _extract_text_from_pdf.
  rewrite Hd. destruct content as [|b content]; [reflexivity|].
  cbn [is_empty]. rewrite He. reflexivity.
Qed.

Lemma all_downloads_failed (dir : path) (ius : list (nat * url))
  (fs : list fs_event) :
  (forall u, download u = None) -> fold_left (save_text dir) ius fs = fs.
Proof.
  intros H. revert fs. induction ius as [|iu ius IH]; intros fs; simpl;
    [reflexivity|].
  rewrite failed_download_skipped by apply H. apply IH.
Qed.

(** The output directory of a URL that [urlparse] accepts. *)
Lemma create_output_directory_parsed (website_url parsed_netloc : pystr) :
  netloc website_url = Returned parsed_netloc ->
  let dir := path_join (path_join cwd (py "scraped_content"))
                       (re_sub (unsafe_char U) (fun _ => [95%N])
                               (replace (py "www.") [] parsed_netloc)) in
  _create_output_directory U cwd netloc website_url
  = (Returned dir, [Mkdir dir]).
Proof.
  intros H. unfold _create_output_directory, _get_website_folder_name.
  rewrite H. reflexivity.
Qed.


End Facts.

Example demo_netloc_values :
  demo_netloc site = Returned (py "n.in") /\
  demo_netloc plain_site = Returned (py "www.none.org") /\
  demo_netloc (py "https://www.mylaporetimes.com/mt-epaper/")
  = Returned (py "www.mylaporetimes.com") /\
  demo_netloc (py "adyartimes.in/epaper/") = Returned [] /\
  demo_netloc bad_url = Raised (py "ValueError: Invalid IPv6 URL").
Proof. vm_compute. repeat split. Qed.

Example demo_scrape_result :
  demo_scrape 4 =
  (Returned (Some [py "home"; py "scraped_content"; py "n_in"]),
   [Mkdir [py "home"; py "scraped_content"; py "n_in"]]).
Proof. vm_compute. reflexivity. Qed.



(** On a URL that [urlparse] rejects, no PDF link is discovered, and yet
    the call does not return [None]: the exception leaves it before the
    directory is made. *)
Example invalid_url_raises :
  demo_netloc bad_url = Raised (py "ValueError: Invalid IPv6 URL") /\
  _discover_pdf_links 1 5 demo_pdfs demo_links bad_url = [] /\
  demo_scrape_at 4 bad_url = (Raised (py "ValueError: Invalid IPv6 URL"), []) /\
  ~ (fst (demo_scrape_at 4 bad_url) = Returned None <->
     _discover_pdf_links 1 5 demo_pdfs demo_links bad_url = []).
Proof.
  split; [vm_compute; reflexivity | split; [vm_compute; reflexivity |
    split; [vm_compute; reflexivity |]]].
  intros [_ H].
  assert (E : fst (demo_scrape_at 4 bad_url) = Returned None)
    by (apply H; vm_compute; reflexivity).
  vm_compute in E. discriminate.
Qed.

End ScraperFacts.

(** ** Greedy repetitions of one character class *)

Module RegexRuns.
Import Regex RegexFacts Text.

Lemma drop_while_length (p : N -> bool) (s : pystr) :
  (length (drop_while p s) <= length s)%nat.
Proof.
  induction s as [|c s IH]; simpl; [lia|]. destruct (p c); simpl; lia.
Qed.

Lemma run_length_cons (p : N -> bool) (c : N) (s : pystr) :
  run_length p (c :: s) = if p c then S (run_length p s) else 0%nat.
Proof.
  unfold run_length. cbn [drop_while]. pose proof (drop_while_length p s).
  destruct (p c); cbn [length]; lia.
Qed.

Lemma skipn_run_length (p : N -> bool) (s : pystr) :
  skipn (run_length p s) s = drop_while p s.
Proof.
  induction s as [|c s IH]; [reflexivity|].
  rewrite run_length_cons. simpl. destruct (p c); [exact IH | reflexivity].
Qed.

Lemma firstn_run_length (p : N -> bool) (s : pystr) :
  Forall (fun c => p c = true) (firstn (run_length p s) s).
Proof.
  induction s as [|c s IH]; [constructor|].
  rewrite run_length_cons. destruct (p c) eqn:P; simpl; constructor; assumption.
Qed.

Lemma drop_while_first (p : N -> bool) (s : pystr) (c : N) :
  first_char (drop_while p s) = Some c -> p c = false.
Proof.
  induction s as [|d s IH]; simpl; [discriminate|].
  destruct (p d) eqn:P; [exact IH|]. simpl. intros [= <-]. exact P.
Qed.

Lemma first_match_hd (r : regex) (s : pystr) :
  first_match r false s = hd_error (rmatch r [] s).
Proof.
  unfold first_match. destruct (rmatch r [] s); reflexivity.
Qed.

Lemma hd_error_app {A : Type} (l1 l2 : list A) (x : A) :
  hd_error l1 = Some x -> hd_error (l1 ++ l2) = Some x.
Proof. destruct l1; simpl; [discriminate | auto]. Qed.

Section Runs.

Variable p : N -> bool.

(** The optional iterations of a greedy repetition of one class first
    offer the longest run. *)
Lemma rep_opt_greedy (n : nat) (caps : captures) (s : pystr) :
  (length s <= n)%nat ->
  hd_error (rep_opt (rmatch (Chr p)) true n caps s)
  = Some (caps, drop_while p s).
Proof.
  revert s. induction n as [|n IH]; intros s H.
  - destruct s; [reflexivity | simpl in H; lia].
  - destruct s as [|c s]; [reflexivity|].
    cbn [rep_opt rmatch drop_while]. destruct (p c).
    + cbn [flat_map fst snd].
      replace (length s <? length (c :: s))%nat with true
        by (symmetry; apply Nat.ltb_lt; simpl; lia).
      rewrite app_nil_r. apply hd_error_app. apply IH. simpl in H. lia.
    + reflexivity.
Qed.

(** The first match of [p{lo,}]: the whole run of [p], when it has at
    least [lo] characters. *)
Lemma rep_greedy_first (lo : nat) (caps : captures) (s : pystr) :
  hd_error (rmatch (Rep true lo None (Chr p)) caps s)
  = if (lo <=? run_length p s)%nat then Some (caps, drop_while p s)
    else None.
Proof.
  cbn [rmatch]. revert s. induction lo as [|lo IH]; intros s.
  - cbn [rep_min]. apply rep_opt_greedy. lia.
  - cbn [rep_min]. destruct s as [|c s]; [reflexivity|].
    rewrite run_length_cons. cbn [rmatch drop_while]. destruct (p c).
    + cbn [flat_map fst snd]. rewrite app_nil_r. rewrite IH. reflexivity.
    + reflexivity.
Qed.

Variable lo : nat.
Variable w : pystr.
Hypothesis lo_positive : (1 <= lo)%nat.

Local Abbreviation squeeze :=
  (sub_from (Rep true lo None (Chr p)) (fun _ => w)).

(** [re.sub] of [p{lo,}] by a constant, at a run that is long enough and
    at any other place. *)
Lemma squeeze_run (c : N) (s : pystr) :
  p c = true -> (lo <= S (run_length p s))%nat ->
  squeeze (c :: s) 0 = w ++ squeeze s (run_length p s).
Proof.
  intros P Hlo. cbn [sub_from]. rewrite first_match_hd, rep_greedy_first.
  rewrite run_length_cons, P.
  replace (lo <=? S (run_length p s))%nat with true
    by (symmetry; apply Nat.leb_le; exact Hlo).
  cbn [fst snd drop_while]. rewrite P.
  replace (length (c :: s) - length (drop_while p s))%nat
    with (S (run_length p s)); [reflexivity|].
  unfold run_length. cbn [length]. pose proof (drop_while_length p s). lia.
Qed.

Lemma squeeze_other (c : N) (s : pystr) :
  p c = false \/ (S (run_length p s) < lo)%nat ->
  squeeze (c :: s) 0 = c :: squeeze s 0.
Proof.
  intros H. cbn [sub_from]. rewrite first_match_hd, rep_greedy_first.
  rewrite run_length_cons.
  destruct (p c) eqn:P.
  - destruct H as [H | H]; [discriminate|].
    replace (lo <=? S (run_length p s))%nat with false
      by (symmetry; apply Nat.leb_gt; exact H).
    reflexivity.
  - replace (lo <=? 0)%nat with false
      by (symmetry; apply Nat.leb_gt; lia).
    reflexivity.
Qed.

Lemma squeeze_nil (skip : nat) : squeeze [] skip = [].
Proof.
  destruct skip; [| reflexivity]. cbn [sub_from].
  rewrite first_match_hd, rep_greedy_first. cbn.
  replace (lo <=? 0)%nat with false by (symmetry; apply Nat.leb_gt; lia).
  reflexivity.
Qed.

(** Skipping is resuming further on. *)
Lemma squeeze_skip (s : pystr) (skip : nat) :
  squeeze s skip = squeeze (skipn skip s) 0.
Proof.
  revert skip. induction s as [|c s IH]; intros skip.
  - rewrite skipn_nil. rewrite !squeeze_nil. reflexivity.
  - destruct skip as [|k]; [reflexivity|]. cbn [sub_from skipn]. apply IH.
Qed.

(** *** The runs that a substitution leaves *)

Lemma run_length_app_class (v x : pystr) :
  Forall (fun c => p c = true) v ->
  run_length p (v ++ x) = (length v + run_length p x)%nat.
Proof.
  induction 1 as [|c v Hc Hv IH]; [reflexivity|].
  simpl app. rewrite run_length_cons, Hc, IH. reflexivity.
Qed.

Lemma runs_le_app_class (bound : nat) (v x : pystr) :
  Forall (fun c => p c = true) v ->
  runs_le p bound x -> (length v + run_length p x <= bound)%nat ->
  runs_le p bound (v ++ x).
Proof.
  induction 1 as [|c v Hc Hv IH]; intros Hx Hlen; [exact Hx|].
  simpl app. cbn [runs_le]. split.
  - rewrite run_length_cons, Hc, run_length_app_class by exact Hv.
    simpl in Hlen. lia.
  - apply IH; [exact Hx | simpl in Hlen; lia].
Qed.

Hypothesis w_in_class : Forall (fun c => p c = true) w.

(** After a substitution the leading run is the replacement, or what was
    there when it was too short to match. *)
Lemma squeeze_leading_run (n : nat) (s : pystr) :
  (length s <= n)%nat ->
  (run_length p (squeeze s 0)
   <= if (lo <=? run_length p s)%nat then length w else run_length p s)%nat.
Proof.
  revert s. induction n as [|n IH]; intros s Hn.
  - destruct s; [| simpl in Hn; lia]. rewrite squeeze_nil.
    destruct (lo <=? run_length p [])%nat; cbn; lia.
  - destruct s as [|c s]; [rewrite squeeze_nil;
      destruct (lo <=? run_length p [])%nat; cbn; lia|].
    rewrite run_length_cons. destruct (p c) eqn:P.
    + destruct (lo <=? S (run_length p s))%nat eqn:L.
      * apply Nat.leb_le in L. rewrite squeeze_run by assumption.
        rewrite squeeze_skip, skipn_run_length.
        rewrite run_length_app_class by exact w_in_class.
        assert (H0 : run_length p (squeeze (drop_while p s) 0) = 0%nat).
        { destruct (drop_while p s) as [|d t] eqn:D; [rewrite squeeze_nil; reflexivity|].
          assert (Pd : p d = false).
          { apply (drop_while_first p s). rewrite D. reflexivity. }
          rewrite squeeze_other by (left; exact Pd).
          rewrite run_length_cons, Pd. reflexivity. }
        rewrite H0. lia.
      * apply Nat.leb_gt in L. rewrite squeeze_other by (right; exact L).
        rewrite run_length_cons, P.
        assert (Hs : (length s <= n)%nat) by (simpl in Hn; lia).
        specialize (IH s Hs).
        replace (lo <=? run_length p s)%nat with false in IH
          by (symmetry; apply Nat.leb_gt; lia).
        lia.
    + rewrite squeeze_other by (left; exact P).
      rewrite run_length_cons, P.
      destruct (lo <=? 0)%nat; lia.
Qed.

(** A substitution of [p{lo,}] by [w] leaves no run of [p] longer than
    the replacement or than the longest run that does not match. *)
Lemma squeeze_runs (n : nat) (s : pystr) :
  (length s <= n)%nat ->
  runs_le p (Nat.max (length w) (lo - 1)) (squeeze s 0).
Proof.
  revert s. induction n as [|n IH]; intros s Hn.
  - destruct s; [| simpl in Hn; lia]. rewrite squeeze_nil. exact I.
  - destruct s as [|c s]; [rewrite squeeze_nil; exact I|].
    assert (Hs : (length s <= n)%nat) by (simpl in Hn; lia).
    destruct (p c) eqn:P.
    + destruct (lo <=? S (run_length p s))%nat eqn:L.
      * apply Nat.leb_le in L. rewrite squeeze_run by assumption.
        rewrite squeeze_skip, skipn_run_length.
        assert (Hd : (length (drop_while p s) <= n)%nat).
        { pose proof (drop_while_length p s). lia. }
        apply runs_le_app_class; [exact w_in_class | apply IH; exact Hd|].
        pose proof (squeeze_leading_run n (drop_while p s) Hd) as Hr.
        assert (R0 : run_length p (drop_while p s) = 0%nat).
        { destruct (drop_while p s) as [|d t] eqn:D; [reflexivity|].
          rewrite run_length_cons.
          rewrite (drop_while_first p s d); [reflexivity | rewrite D; reflexivity]. }
        rewrite R0 in Hr.
        replace (lo <=? 0)%nat with false in Hr
          by (symmetry; apply Nat.leb_gt; lia).
        lia.
      * apply Nat.leb_gt in L. rewrite squeeze_other by (right; exact L).
        cbn [runs_le]. split; [| apply IH; exact Hs].
        rewrite run_length_cons, P.
        pose proof (squeeze_leading_run n s Hs) as Hr.
        replace (lo <=? run_length p s)%nat with false in Hr
          by (symmetry; apply Nat.leb_gt; lia).
        lia.
    + rewrite squeeze_other by (left; exact P).
      cbn [runs_le]. split; [| apply IH; exact Hs].
      rewrite run_length_cons, P. lia.
Qed.

(** *** Runs of another class *)

Variable q : N -> bool.
Hypothesis classes_apart : forall c, p c = true -> q c = false.
Hypothesis w_not_empty : w <> [].

Lemma runs_le_skipn (bound k : nat) (s : pystr) :
  runs_le q bound s -> runs_le q bound (skipn k s).
Proof.
  revert s. induction k as [|k IH]; intros s H; [exact H|].
  destruct s as [|c s]; [exact I|]. simpl. apply IH. apply H.
Qed.

Lemma runs_le_app_apart (bound : nat) (v x : pystr) :
  Forall (fun c => p c = true) v ->
  runs_le q bound x -> runs_le q bound (v ++ x).
Proof.
  induction 1 as [|c v Hc Hv IH]; intros Hx; [exact Hx|].
  simpl app. cbn [runs_le]. split; [| apply IH; exact Hx].
  rewrite run_length_cons, (classes_apart c Hc). lia.
Qed.

Lemma squeeze_leading_apart (n : nat) (s : pystr) :
  (length s <= n)%nat ->
  (run_length q (squeeze s 0) <= run_length q s)%nat.
Proof.
  revert s. induction n as [|n IH]; intros s Hn.
  - destruct s; [| simpl in Hn; lia]. rewrite squeeze_nil. lia.
  - destruct s as [|c s]; [rewrite squeeze_nil; lia|].
    assert (Hs : (length s <= n)%nat) by (simpl in Hn; lia).
    destruct (p c) eqn:P.
    + destruct (lo <=? S (run_length p s))%nat eqn:L.
      * apply Nat.leb_le in L. rewrite squeeze_run by assumption.
        destruct w as [|d v] eqn:W; [congruence|].
        inversion w_in_class as [|? ? Hd Hv]; subst.
        simpl app. rewrite run_length_cons, (classes_apart d Hd). lia.
      * apply Nat.leb_gt in L. rewrite squeeze_other by (right; exact L).
        rewrite !run_length_cons. specialize (IH s Hs).
        destruct (q c); lia.
    + rewrite squeeze_other by (left; exact P).
      rewrite !run_length_cons. specialize (IH s Hs).
      destruct (q c); lia.
Qed.

(** A substitution of [p{lo,}] by [w] makes no run of another class
    longer. *)
Lemma squeeze_runs_apart (bound n : nat) (s : pystr) :
  (length s <= n)%nat ->
  runs_le q bound s -> runs_le q bound (squeeze s 0).
Proof.
  revert s. induction n as [|n IH]; intros s Hn Hs.
  - destruct s; [| simpl in Hn; lia]. rewrite squeeze_nil. exact I.
  - destruct s as [|c s]; [rewrite squeeze_nil; exact I|].
    assert (Hlen : (length s <= n)%nat) by (simpl in Hn; lia).
    destruct Hs as [Hc Hs].
    assert (Hother : runs_le q bound (c :: squeeze s 0)).
    { cbn [runs_le]. split; [| apply IH; assumption].
      rewrite run_length_cons in *.
      pose proof (squeeze_leading_apart n s Hlen). destruct (q c); lia. }
    destruct (p c) eqn:P.
    + destruct (lo <=? S (run_length p s))%nat eqn:L.
      * apply Nat.leb_le in L. rewrite squeeze_run by assumption.
        rewrite squeeze_skip. apply runs_le_app_apart; [exact w_in_class|].
        apply IH.
        -- pose proof (length_skipn (run_length p s) s). lia.
        -- apply runs_le_skipn. exact Hs.
      * apply Nat.leb_gt in L. rewrite squeeze_other by (right; exact L).
        exact Hother.
    + rewrite squeeze_other by (left; exact P). exact Hother.
Qed.

End Runs.

(** A text is free of [bound + 1] copies of [a] in a row when no run of
    [a] exceeds [bound]. *)
Lemma startswith_run (a : N) (k : nat) (t : pystr) :
  startswith (repeat a k) t = true -> (k <= run_length (N.eqb a) t)%nat.
Proof.
  revert t. induction k as [|k IH]; intros t H; [lia|].
  destruct t as [|c t]; [discriminate|]. simpl in H.
  apply andb_true_iff in H. destruct H as [Hc Hk].
  rewrite run_length_cons, Hc. specialize (IH t Hk). lia.
Qed.

Lemma runs_le_contains (a : N) (bound : nat) (t : pystr) :
  runs_le (N.eqb a) bound t -> contains (repeat a (S bound)) t = false.
Proof.
  induction t as [|c t IH]; intros H; [reflexivity|].
  destruct H as [Hc Ht]. cbn [contains]. rewrite (IH Ht), orb_false_r.
  destruct (startswith (repeat a (S bound)) (c :: t)) eqn:S; [| reflexivity].
  apply startswith_run in S. lia.
Qed.

End RegexRuns.

(** ** Captured groups and resumption *)

Module RegexGroups.
Import Regex RegexFacts Text RegexRuns.

Lemma keeps_captures_rep_opt (m : matcher) (greedy : bool) (n : nat) :
  keeps_captures m -> keeps_captures (rep_opt m greedy n).
Proof.
  intros Hm. induction n as [|n IH]; intros caps s caps' rest Hin;
    simpl in Hin.
  - destruct Hin as [[= <- <-] | []]. reflexivity.
  - assert (Hmore : In (caps', rest)
              (flat_map (fun cs =>
                 if (length (snd cs) <? length s)%nat
                 then rep_opt m greedy n (fst cs) (snd cs) else []) (m caps s)) ->
              caps' = caps).
    { intros H. apply in_flat_map in H. destruct H as ([c1 s1] & H1 & H2).
      simpl in H2. destruct (length s1 <? length s)%nat; [| destruct H2].
      rewrite (IH _ _ _ _ H2). apply (Hm _ _ _ _ H1). }
    destruct greedy.
    + apply in_app_or in Hin. destruct Hin as [H | [[= <- <-] | []]]; auto.
    + destruct Hin as [[= <- <-] | H]; auto.
Qed.

Lemma keeps_captures_rep_min (m rest : matcher) (lo : nat) :
  keeps_captures m -> keeps_captures rest ->
  keeps_captures (rep_min m lo rest).
Proof.
  intros Hm Hrest. induction lo as [|lo IH]; intros caps s caps' t Hin;
    simpl in Hin.
  - apply (Hrest _ _ _ _ Hin).
  - apply in_flat_map in Hin. destruct Hin as ([c1 s1] & H1 & H2). simpl in H2.
    rewrite (IH _ _ _ _ H2). apply (Hm _ _ _ _ H1).
Qed.

Lemma keeps_captures_chr (p : N -> bool) : keeps_captures (rmatch (Chr p)).
Proof.
  intros caps s caps' rest Hin. simpl in Hin.
  destruct s as [|c s]; [destruct Hin|].
  destruct (p c); [| destruct Hin]. destruct Hin as [[= <- <-] | []].
  reflexivity.
Qed.

(** A match of [p+]: a non-empty run of [p], and no group recorded. *)
Lemma plus_match (p : N -> bool) (caps : captures) (t : pystr) caps' rest :
  In (caps', rest) (rmatch (plus (Chr p)) caps t) ->
  caps' = caps /\
  exists x, t = x ++ rest /\ x <> [] /\ Forall (fun c => p c = true) x.
Proof.
  intros Hin. split.
  - revert Hin. unfold plus. cbn [rmatch].
    apply keeps_captures_rep_min; [apply keeps_captures_chr|].
    intros c1 s1 c2 s2. apply keeps_captures_rep_opt, keeps_captures_chr.
  - assert (Hq : classes_within p (plus (Chr p))) by (simpl; auto).
    destruct (rmatch_sound p _ Hq _ _ _ _ Hin) as (x & Hx & Hall).
    exists x. repeat split; [exact Hx | | exact Hall].
    intros ->. simpl in Hx. subst t.
    pose proof (rmatch_progresses (plus (Chr p)) eq_refl _ _ _ _ Hin). lia.
Qed.

Lemma group_match (i : nat) (r : regex) (caps : captures) (t : pystr)
  caps' rest :
  In (caps', rest) (rmatch (Group i r) caps t) ->
  exists c1 x, In (c1, rest) (rmatch r caps t) /\ t = x ++ rest /\
               caps' = (i, x) :: c1.
Proof.
  cbn [rmatch]. intros Hin. apply in_map_iff in Hin.
  destruct Hin as ([c1 s1] & [= <- <-] & H1).
  destruct (rmatch_suffix r _ _ _ _ H1) as (x & Hx & _).
  exists c1, x. repeat split; [exact H1 | exact Hx |].
  cbn [fst snd]. rewrite Hx at 1 2. rewrite length_app.
  replace (length x + length s1 - length s1)%nat with (length x) by lia.
  rewrite firstn_app, firstn_all, Nat.sub_diag. simpl. rewrite app_nil_r.
  reflexivity.
Qed.

Lemma lit_match (a : N) (caps : captures) (t : pystr) caps' rest :
  In (caps', rest) (rmatch (lit a) caps t) -> t = a :: rest /\ caps' = caps.
Proof.
  unfold lit. cbn [rmatch]. destruct t as [|c t]; [intros []|].
  destruct (N.eqb a c) eqn:E; [| intros []].
  apply N.eqb_eq in E. subst c. intros [[= <- <-] | []]. auto.
Qed.

Lemma seq_match (r1 r2 : regex) (caps : captures) (t : pystr) caps' rest :
  In (caps', rest) (rmatch (Seq r1 r2) caps t) ->
  exists c1 s1, In (c1, s1) (rmatch r1 caps t) /\
                In (caps', rest) (rmatch r2 c1 s1).
Proof.
  cbn [rmatch]. intros Hin. apply in_flat_map in Hin.
  destruct Hin as ([c1 s1] & H1 & H2). exists c1, s1. auto.
Qed.

(** Skipping is resuming further on. *)
Lemma sub_from_skip (r : regex) (repl : captures -> pystr) (s : pystr)
  (skip : nat) :
  (skip <= length s)%nat ->
  sub_from r repl s skip = sub_from r repl (skipn skip s) 0.
Proof.
  revert skip. induction s as [|c s IH]; intros skip H.
  - simpl in H. replace skip with 0%nat by lia. reflexivity.
  - destruct skip as [|k]; [reflexivity|]. cbn [sub_from skipn].
    apply IH. simpl in H. lia.
Qed.

Lemma hd_error_map {A B : Type} (f : A -> B) (l : list A) (a : A) :
  hd_error l = Some a -> hd_error (map f l) = Some (f a).
Proof. destruct l; simpl; [discriminate | intros [= ->]; reflexivity]. Qed.

Lemma hd_error_flat_map {A B : Type} (f : A -> list B) (l : list A)
  (a : A) (b : B) :
  hd_error l = Some a -> hd_error (f a) = Some b ->
  hd_error (flat_map f l) = Some b.
Proof.
  destruct l; simpl; [discriminate|]. intros [= ->] H.
  apply hd_error_app. exact H.
Qed.

End RegexGroups.

(** ** More on the text passes *)

Module TextMore.
Import Regex RegexFacts Text TextFacts RegexRuns RegexGroups.

Section Passes.

Variable U : unicode_data.

(** *** Spacing of the normalised text *)

Lemma squeezed_spaces (s : pystr) :
  runs_le (N.eqb 32) 1 (re_sub (plus (lit 32)) (fun _ => [32%N]) s).
Proof.
  apply (squeeze_runs (N.eqb 32) 1 [32%N] (le_n 1)) with (n := length s).
  - repeat constructor.
  - lia.
Qed.

Lemma squeezed_newlines (s : pystr) :
  runs_le (N.eqb 10) 2 (re_sub (at_least 3 (lit 10)) (fun _ => [10; 10]%N) s).
Proof.
  apply (squeeze_runs (N.eqb 10) 3 [10; 10]%N) with (n := length s).
  - lia.
  - repeat constructor.
  - lia.
Qed.

Lemma squeezed_newlines_keep_spaces (s : pystr) :
  runs_le (N.eqb 32) 1 s ->
  runs_le (N.eqb 32) 1
          (re_sub (at_least 3 (lit 10)) (fun _ => [10; 10]%N) s).
Proof.
  apply (squeeze_runs_apart (N.eqb 10) 3 [10; 10]%N) with (n := length s).
  - lia.
  - repeat constructor.
  - intros c Hc. apply N.eqb_eq in Hc. subst c. reflexivity.
  - discriminate.
  - lia.
Qed.

(** X10.  The text returned by [_normalize_text] never has two spaces in
    a row, nor three line feeds in a row: words are separated by single
    spaces and paragraphs by at most one empty line. *)
Theorem normalize_spacing (text : pystr) :
  contains [32; 32]%N (_normalize_text U text) = false /\
  contains [10; 10; 10]%N (_normalize_text U text) = false.
Proof.
  unfold _normalize_text. destruct (is_empty text); [split; reflexivity|].
  destruct (fold_left _ _ _) as [normalized_lines buffer].
  destruct (fold_left _ _ _) as [chunks current].
  split.
  - apply (runs_le_contains 32 1).
    apply squeezed_newlines_keep_spaces, squeezed_spaces.
  - apply (runs_le_contains 10 2). apply squeezed_newlines.
Qed.

(** *** De-hyphenation *)

Local Abbreviation word := (fun c => word_char U c = true).

(** What [(\w+)-\n(\w+)] matches, and what its two groups hold. *)
Lemma hyphen_break_match (caps : captures) (t : pystr) caps' rest :
  In (caps', rest) (rmatch (hyphen_break U) caps t) ->
  exists x1 x2,
    t = x1 ++ [45; 10]%N ++ x2 ++ rest /\ x1 <> [] /\ x2 <> [] /\
    Forall word x1 /\ Forall word x2 /\
    caps' = (2%nat, x2) :: (1%nat, x1) :: caps.
Proof.
  unfold hyphen_break. cbn [seq_of]. intros Hin.
  apply seq_match in Hin. destruct Hin as (c1 & s1 & Hg1 & Hin).
  apply group_match in Hg1. destruct Hg1 as (c0 & x1 & Hp1 & Ht & ->).
  apply plus_match in Hp1. destruct Hp1 as (-> & y1 & Ht' & Hne1 & Hw1).
  assert (y1 = x1) by (apply (app_inv_tail s1); congruence). subst y1.
  apply seq_match in Hin. destruct Hin as (c2 & s2 & Hl1 & Hin).
  apply lit_match in Hl1. destruct Hl1 as [-> ->].
  apply seq_match in Hin. destruct Hin as (c3 & s3 & Hl2 & Hin).
  apply lit_match in Hl2. destruct Hl2 as [-> ->].
  apply group_match in Hin. destruct Hin as (c4 & x2 & Hp2 & Hs3 & ->).
  apply plus_match in Hp2. destruct Hp2 as (-> & y2 & Hs3' & Hne2 & Hw2).
  assert (y2 = x2) by (apply (app_inv_tail rest); congruence). subst y2.
  exists x1, x2. subst s3. repeat split; assumption.
Qed.

Lemma sub_from_joined (s : pystr) (skip : nat) :
  (skip <= length s)%nat ->
  joined U (skipn skip s) (sub_from (hyphen_break U) both_fragments s skip).
Proof.
  revert skip. induction s as [|c s IH]; intros skip Hskip.
  - simpl in Hskip. replace skip with 0%nat by lia. cbn [sub_from skipn].
    destruct (first_match (hyphen_break U) false []) as [[caps rest]|] eqn:F;
      [| constructor].
    apply first_match_In, hyphen_break_match in F.
    destruct F as (x1 & x2 & Ht & Hne & _). destruct x1; [congruence | discriminate].
  - destruct skip as [|k]; [| cbn [sub_from skipn]; apply IH; simpl in Hskip; lia].
    cbn [sub_from skipn].
    destruct (first_match (hyphen_break U) false (c :: s)) as [[caps rest]|] eqn:F;
      [| constructor; apply (IH 0%nat); lia].
    apply first_match_In, hyphen_break_match in F.
    destruct F as (x1 & x2 & Ht & Hne1 & Hne2 & Hw1 & Hw2 & ->).
    cbn [fst snd].
    assert (Hlen : (length (c :: s) - length rest
                    = S (length x1 + length x2 + 1))%nat).
    { rewrite Ht, !length_app. simpl. lia. }
    rewrite Hlen.
    assert (Hrest : skipn (length x1 + length x2 + 1) s = rest).
    { change (skipn (S (length x1 + length x2 + 1)) (c :: s) = rest).
      rewrite Ht.
      replace (x1 ++ [45; 10]%N ++ x2 ++ rest)
        with ((x1 ++ [45; 10]%N ++ x2) ++ rest)
        by (rewrite <- !app_assoc; reflexivity).
      rewrite skipn_app.
      replace (S (length x1 + length x2 + 1))
        with (length (x1 ++ [45; 10]%N ++ x2))
        by (rewrite !length_app; simpl; lia).
      rewrite skipn_all, Nat.sub_diag. reflexivity. }
    assert (Hk : (length x1 + length x2 + 1 <= length s)%nat).
    { assert (E : length (c :: s) = length (x1 ++ [45; 10]%N ++ x2 ++ rest))
        by (rewrite Ht; reflexivity).
      rewrite !length_app in E. simpl in E. lia. }
    specialize (IH _ Hk). rewrite Hrest in IH.
    rewrite Ht. unfold both_fragments. cbn [group find fst snd Nat.eqb].
    rewrite <- app_assoc.
    apply joined_break; assumption.
Qed.

Lemma dehyphenate_joined (text : pystr) : joined U text (dehyphenate U text).
Proof. apply (sub_from_joined text 0). lia. Qed.

Lemma joined_length (s t : pystr) :
  joined U s t -> (length t <= length s)%nat.
Proof.
  induction 1; simpl; rewrite ?length_app; simpl; rewrite ?length_app; lia.
Qed.

Lemma joined_other_chars (s t : pystr) :
  joined U s t -> filter not_break_char t = filter not_break_char s.
Proof.
  induction 1 as [| c s t _ IH | x1 x2 s t _ _ _ _ _ IH]; [reflexivity | |].
  - simpl. rewrite IH. reflexivity.
  - rewrite !filter_app, IH. reflexivity.
Qed.

Lemma joined_unbroken (s t : pystr) :
  joined U s t -> contains [45; 10]%N s = false -> t = s.
Proof.
  induction 1 as [| c s t _ IH | x1 x2 s t _ _ _ _ _ _]; intros Hc.
  - reflexivity.
  - cbn [contains] in Hc. apply orb_false_iff in Hc. destruct Hc as [_ Hc].
    rewrite (IH Hc). reflexivity.
  - exfalso. clear -Hc. induction x1 as [|c x1 IH].
    + simpl in Hc. discriminate.
    + simpl app in Hc. cbn [contains] in Hc.
      apply orb_false_iff in Hc. destruct Hc as [_ Hc]. apply IH, Hc.
Qed.

(** X11.  De-hyphenation only removes hyphen and line feed pairs that
    stand between two runs of word characters: every other character of
    the text is kept, in order, and the text never grows. *)
Theorem dehyphenate_only_joins (text : pystr) :
  joined U text (dehyphenate U text) /\
  filter not_break_char (dehyphenate U text) = filter not_break_char text /\
  (length (dehyphenate U text) <= length text)%nat.
Proof.
  pose proof (dehyphenate_joined text) as H.
  split; [exact H | split].
  - apply joined_other_chars. exact H.
  - apply joined_length. exact H.
Qed.

(** X12.  A text in which no hyphen is directly followed by a line feed
    passes through de-hyphenation unchanged. *)
Theorem dehyphenate_unbroken (text : pystr) :
  contains [45; 10]%N text = false -> dehyphenate U text = text.
Proof.
  apply joined_unbroken, dehyphenate_joined.
Qed.

Lemma drop_while_run (p : N -> bool) (x t : pystr) :
  Forall (fun c => p c = true) x ->
  (forall c, first_char t = Some c -> p c = false) ->
  drop_while p (x ++ t) = t /\ run_length p (x ++ t) = length x.
Proof.
  intros Hx Ht.
  assert (E : drop_while p (x ++ t) = t).
  { induction Hx as [|c x Hc Hx IH]; simpl.
    - destruct t as [|d t]; [reflexivity|]. simpl.
      rewrite (Ht d eq_refl). reflexivity.
    - rewrite Hc. exact IH. }
  split; [exact E|]. unfold run_length. rewrite E, length_app. lia.
Qed.

Lemma plus_first (p : N -> bool) (caps : captures) (x t : pystr) :
  x <> [] -> Forall (fun c => p c = true) x ->
  (forall c, first_char t = Some c -> p c = false) ->
  hd_error (rmatch (plus (Chr p)) caps (x ++ t)) = Some (caps, t).
Proof.
  intros Hne Hx Ht. unfold plus. rewrite rep_greedy_first.
  destruct (drop_while_run p x t Hx Ht) as [-> ->].
  destruct x; [congruence | reflexivity].
Qed.

Lemma group_first (i : nat) (p : N -> bool) (caps : captures) (x t : pystr) :
  x <> [] -> Forall (fun c => p c = true) x ->
  (forall c, first_char t = Some c -> p c = false) ->
  hd_error (rmatch (Group i (plus (Chr p))) caps (x ++ t))
  = Some ((i, x) :: caps, t).
Proof.
  intros Hne Hx Ht. cbn [rmatch].
  rewrite (hd_error_map _ _ (caps, t)) by (apply plus_first; assumption).
  cbn [fst snd]. rewrite length_app.
  replace (length x + length t - length t)%nat with (length x) by lia.
  rewrite firstn_app, firstn_all, Nat.sub_diag. simpl. rewrite app_nil_r.
  reflexivity.
Qed.

Lemma seq_unfold (r1 r2 : regex) (caps : captures) (t : pystr) :
  rmatch (Seq r1 r2) caps t
  = flat_map (fun cs => rmatch r2 (fst cs) (snd cs)) (rmatch r1 caps t).
Proof. reflexivity. Qed.

Lemma seq_lit_step (a : N) (r : regex) (caps : captures) (t : pystr) :
  rmatch (Seq (lit a) r) caps (a :: t) = rmatch r caps t.
Proof.
  rewrite seq_unfold. unfold lit at 1. cbn [rmatch]. rewrite N.eqb_refl.
  cbn [flat_map fst snd]. apply app_nil_r.
Qed.

(** The first match of [(\w+)-\n(\w+)] at a break that starts the text. *)
Lemma hyphen_break_first (x1 x2 rest : pystr) :
  word_char U 45 = false ->
  x1 <> [] -> x2 <> [] -> Forall word x1 -> Forall word x2 ->
  (forall c, first_char rest = Some c -> word_char U c = false) ->
  first_match (hyphen_break U) false (x1 ++ [45; 10]%N ++ x2 ++ rest)
  = Some ([(2%nat, x2); (1%nat, x1)], rest).
Proof.
  intros Hh Hne1 Hne2 Hw1 Hw2 Hrest. rewrite first_match_hd.
  unfold hyphen_break. cbn [seq_of]. rewrite seq_unfold.
  apply hd_error_flat_map
    with (a := ([(1%nat, x1)], [45; 10]%N ++ x2 ++ rest)).
  - apply (group_first 1 (word_char U) [] x1); [assumption | assumption|].
    intros c [= <-]. exact Hh.
  - cbn [fst snd app]. rewrite !seq_lit_step.
    apply (group_first 2 (word_char U) [(1%nat, x1)] x2); assumption.
Qed.

(** X13.  A break at the start of the text is joined: when the text
    begins with a run of word characters, a hyphen, a line feed and a
    second run of word characters that ends there, de-hyphenation puts
    the two runs together and goes on with the rest of the text. *)
Theorem dehyphenate_leading_break (x1 x2 rest : pystr) :
  word_char U 45 = false ->
  x1 <> [] -> x2 <> [] -> Forall word x1 -> Forall word x2 ->
  (forall c, first_char rest = Some c -> word_char U c = false) ->
  dehyphenate U (x1 ++ [45; 10]%N ++ x2 ++ rest)
  = x1 ++ x2 ++ dehyphenate U rest.
Proof.
  intros Hh Hne1 Hne2 Hw1 Hw2 Hrest.
  pose proof (hyphen_break_first x1 x2 rest Hh Hne1 Hne2 Hw1 Hw2 Hrest) as F.
  unfold dehyphenate, re_sub. destruct x1 as [|c x1]; [congruence|].
  simpl app in *. cbn [sub_from]. rewrite F. cbn [fst snd].
  replace (length (c :: x1 ++ 45%N :: 10%N :: x2 ++ rest) - length rest)%nat
    with (S (length (x1 ++ 45%N :: 10%N :: x2)))
    by (cbn [length]; rewrite !length_app; cbn [length];
        rewrite !length_app; lia).
  rewrite sub_from_skip
    by (rewrite !length_app; cbn [length]; rewrite !length_app; lia).
  replace (x1 ++ 45%N :: 10%N :: x2 ++ rest)
    with ((x1 ++ 45%N :: 10%N :: x2) ++ rest)
    by (rewrite <- app_assoc; reflexivity).
  rewrite skipn_app, skipn_all, Nat.sub_diag. simpl skipn. simpl app.
  unfold both_fragments. cbn [group find fst snd Nat.eqb].
  rewrite <- app_assoc. reflexivity.
Qed.

(** *** The lines that the filter keeps *)

Local Abbreviation space := (fun c => isspace U c = true).

Lemma drop_while_fixed (p : N -> bool) (s : pystr) :
  (forall c, first_char s = Some c -> p c = false) -> drop_while p s = s.
Proof.
  destruct s as [|c s]; [reflexivity|]. intros H. simpl.
  rewrite (H c eq_refl). reflexivity.
Qed.

Lemma strip_first (s : pystr) (c : N) :
  first_char (strip U s) = Some c -> isspace U c = false.
Proof.
  unfold strip, rstrip, lstrip.
  destruct (drop_while_split (isspace U) (rev (drop_while (isspace U) s)))
    as (w & Hw & _).
  set (r := drop_while (isspace U) (rev (drop_while (isspace U) s))) in *.
  assert (Ht : drop_while (isspace U) s = rev r ++ rev w).
  { rewrite <- rev_app_distr, <- Hw, rev_involutive. reflexivity. }
  intros Hc. apply (drop_while_first (isspace U) s). rewrite Ht.
  destruct (rev r); [discriminate | exact Hc].
Qed.

Lemma strip_last (s : pystr) (c : N) :
  first_char (rev (strip U s)) = Some c -> isspace U c = false.
Proof.
  unfold strip, rstrip. rewrite rev_involutive. apply drop_while_first.
Qed.

Lemma strip_strip (s : pystr) : strip U (strip U s) = strip U s.
Proof.
  unfold strip at 1. unfold rstrip, lstrip.
  rewrite (drop_while_fixed (isspace U) (strip U s)) by apply strip_first.
  rewrite (drop_while_fixed (isspace U) (rev (strip U s))) by apply strip_last.
  apply rev_involutive.
Qed.

Lemma kept_of_stays (lines : list pystr) :
  flat_map (kept_of U) lines = filter (stays U) (map (strip U) lines).
Proof.
  induction lines as [|raw lines IH]; [reflexivity|].
  simpl. rewrite IH. unfold kept_of, filter_line, stays.
  destruct (strip U raw) as [|c line]; [reflexivity|]. cbn [is_empty].
  destruct (is_short U (c :: line)); reflexivity.
Qed.

Lemma split_on_not_nil (sep : N) (s : pystr) : split_on sep s <> [].
Proof.
  destruct s as [|c s]; simpl; [discriminate|].
  destruct (N.eqb c sep); [discriminate|].
  destruct (split_on sep s); discriminate.
Qed.

(** X14.  The output of [_filter_content] is made of lines of the input
    (after the pattern substitutions), stripped and in their order: the
    lines that are empty or not short.  No line is added, reordered or
    left with white space at its ends, and the output has no more lines
    than the input. *)
Theorem filter_content_lines_kept (text : pystr) :
  let lines := split_on 10 (strip_patterns U text) in
  let kept := filter (stays U) (map (strip U) lines) in
  _filter_content U text = join [10%N] kept /\
  (kept <> [] -> split_on 10 (_filter_content U text) = kept) /\
  Forall (fun line => strip U line = line) kept /\
  (length (split_on 10 (_filter_content U text)) <= length lines)%nat.
Proof.
  intros lines kept.
  assert (E : _filter_content U text = join [10%N] kept).
  { unfold _filter_content. rewrite filter_lines_flat. simpl.
    rewrite kept_of_stays. reflexivity. }
  assert (Hnl : Forall (fun piece => ~ In 10%N piece) kept).
  { apply Forall_forall. intros line Hin. unfold kept in Hin.
    apply filter_In in Hin. destruct Hin as [Hin _].
    apply in_map_iff in Hin. destruct Hin as (raw & <- & Hraw).
    apply strip_no_newline.
    pose proof (split_on_no_sep 10 (strip_patterns U text)) as Hall.
    rewrite Forall_forall in Hall. apply Hall, Hraw. }
  split; [exact E | split; [| split]].
  - intros Hne. rewrite E. apply split_on_join; assumption.
  - apply Forall_forall. intros line Hin. unfold kept in Hin.
    apply filter_In in Hin. destruct Hin as [Hin _].
    apply in_map_iff in Hin. destruct Hin as (raw & <- & _).
    apply strip_strip.
  - rewrite E. destruct kept as [|k kept'] eqn:K.
    + simpl. pose proof (split_on_not_nil 10 (strip_patterns U text)).
      fold lines in H. destruct lines; [congruence | simpl; lia].
    + rewrite split_on_join by (assumption || discriminate).
      rewrite <- K. unfold kept.
      rewrite <- (length_map (strip U) lines). apply filter_length_le.
Qed.

(** *** Texts without a word *)

Hypothesis space_is_space : isspace U 32 = true.
Hypothesis newline_is_space : isspace U 10 = true.

Lemma normalize_words (text : pystr) :
  words U (_normalize_text U text) = words U (dehyphenate U text).
Proof.
  unfold _normalize_text. destruct text as [|c text]; [reflexivity|].
  cbn [is_empty]. set (t := dehyphenate U (c :: text)).
  pose proof (merge_lines_words U space_is_space (split_on 10 t)
                (enumerate (split_on 10 t)) ([], [])) as M.
  destruct (fold_left (merge_line U (split_on 10 t)) (enumerate (split_on 10 t))
                      ([], [])) as [normalized_lines buffer].
  pose proof (gather_words U space_is_space (flush normalized_lines buffer)
                ([], [])) as G.
  destruct (fold_left gather (flush normalized_lines buffer) ([], []))
    as [chunks current].
  cbn [fst snd] in M, G. simpl in M, G.
  rewrite map_snd_enumerate, (words_lines U newline_is_space) in M.
  rewrite flush_words, M in G.
  destruct (newlines_pattern U newline_is_space) as [Hn1 Hn2].
  destruct (spaces_pattern U space_is_space) as [Hs1 Hs2].
  rewrite re_sub_words;
    [| assumption | assumption
     | repeat constructor; exact newline_is_space | discriminate].
  rewrite re_sub_words;
    [| assumption | assumption
     | repeat constructor; exact space_is_space | discriminate].
  rewrite words_join;
    [| repeat constructor; exact newline_is_space | discriminate].
  rewrite (close_paragraph_words U space_is_space). exact G.
Qed.

Lemma no_word_spaces (cur s : pystr) :
  split_ws U cur s = [] -> cur = [] /\ Forall space s.
Proof.
  revert cur. induction s as [|c s IH]; intros cur H; simpl in H.
  - destruct cur; [auto | discriminate].
  - destruct (isspace U c) eqn:Sp.
    + apply app_eq_nil in H. destruct H as [Hc Hs].
      destruct (IH [] Hs) as [_ Hall].
      split; [destruct cur; [reflexivity | discriminate] | constructor; assumption].
    + destruct (IH _ H) as [Hc _]. destruct cur; discriminate.
Qed.

Lemma piece_of_join {P : N -> Prop} (sep : pystr) (pieces : list pystr)
  (piece : pystr) :
  In piece pieces -> Forall P (join sep pieces) -> Forall P piece.
Proof.
  induction pieces as [|x rest IH]; [intros []|].
  destruct rest as [|y rest].
  - intros [<- | []] H. exact H.
  - change (join sep (x :: y :: rest)) with (x ++ sep ++ join sep (y :: rest)).
    intros Hin H. apply Forall_app in H. destruct H as [Hx H].
    apply Forall_app in H. destruct H as [_ H].
    destruct Hin as [<- | Hin]; [exact Hx | apply IH; assumption].
Qed.

Lemma strip_spaces (s : pystr) : Forall space s -> strip U s = [].
Proof.
  intros H. unfold strip, rstrip, lstrip.
  assert (E : drop_while (isspace U) s = []).
  { induction H as [|c s Hc _ IH]; simpl; [reflexivity | rewrite Hc; exact IH]. }
  rewrite E. reflexivity.
Qed.

Lemma merge_blank_lines (lines : list pystr) (ils : list (nat * pystr))
  (normalized_lines : list pystr) :
  Forall (fun il => strip U (snd il) = []) ils ->
  exists k, fold_left (merge_line U lines) ils (normalized_lines, [])
            = (normalized_lines ++ repeat [] k, []).
Proof.
  intros H. revert normalized_lines.
  induction H as [|il ils Hil _ IH]; intros normalized_lines.
  - exists 0%nat. simpl. rewrite app_nil_r. reflexivity.
  - cbn [fold_left]. unfold merge_line at 2. rewrite Hil. cbn [is_empty flush].
    destruct (IH (normalized_lines ++ [[]])) as [k Hk].
    exists (S k). rewrite Hk, <- app_assoc. reflexivity.
Qed.

Lemma gather_blank_lines (k : nat) :
  fold_left gather (repeat [] k) ([], []) = ([], []).
Proof.
  induction k as [|k IH]; [reflexivity | exact IH].
Qed.

(** X15.  Provided the space and the line feed are white space,
    [_normalize_text] returns the empty string exactly when the
    de-hyphenated text has no word. *)
Theorem normalize_empty_iff (text : pystr) :
  _normalize_text U text = [] <-> words U (dehyphenate U text) = [].
Proof.
  split.
  - intros H. rewrite <- normalize_words, H. reflexivity.
  - intros H. unfold _normalize_text.
    destruct (is_empty text); [reflexivity|].
    apply no_word_spaces in H. destruct H as [_ H].
    set (t := dehyphenate U text) in *.
    assert (Hlines : Forall (fun il => strip U (snd il) = [])
                            (enumerate (split_on 10 t))).
    { apply Forall_forall. intros il Hin. apply strip_spaces.
      apply (piece_of_join [10%N] (split_on 10 t)).
      - rewrite <- (map_snd_enumerate (split_on 10 t)).
        apply in_map. exact Hin.
      - rewrite join_split_on. exact H. }
    destruct (merge_blank_lines (split_on 10 t) _ [] Hlines) as [k Hk].
    rewrite Hk. simpl app. cbn [flush]. rewrite gather_blank_lines.
    reflexivity.
Qed.

End Passes.

(** *** On sample texts *)

Lemma dehyphenate_unbroken_witness :
  contains [45; 10]%N (py "a well-known fact") = false /\
  dehyphenate ascii_data (py "a well-known fact") = py "a well-known fact".
Proof.
  assert (H : contains [45; 10]%N (py "a well-known fact") = false)
    by reflexivity.
  split; [exact H|].
  exact (dehyphenate_unbroken ascii_data (py "a well-known fact") H).
Defined.

Lemma dehyphenate_leading_break_witness :
  word_char ascii_data 45 = false /\
  py "expec" <> [] /\ py "ted" <> [] /\
  Forall (fun c => word_char ascii_data c = true) (py "expec") /\
  Forall (fun c => word_char ascii_data c = true) (py "ted") /\
  (forall c, first_char (py ". Next") = Some c ->
             word_char ascii_data c = false) /\
  dehyphenate ascii_data (py "expec" ++ [45; 10]%N ++ py "ted" ++ py ". Next")
  = py "expec" ++ py "ted" ++ dehyphenate ascii_data (py ". Next").
Proof.
  assert (H1 : word_char ascii_data 45 = false) by reflexivity.
  assert (H2 : py "expec" <> []) by discriminate.
  assert (H3 : py "ted" <> []) by discriminate.
  assert (H4 : Forall (fun c => word_char ascii_data c = true) (py "expec"))
    by (repeat constructor).
  assert (H5 : Forall (fun c => word_char ascii_data c = true) (py "ted"))
    by (repeat constructor).
  assert (H6 : forall c, first_char (py ". Next") = Some c ->
                         word_char ascii_data c = false)
    by (intros c [= <-]; reflexivity).
  repeat (split; [assumption|]).
  exact (dehyphenate_leading_break ascii_data (py "expec") (py "ted")
           (py ". Next") H1 H2 H3 H4 H5 H6).
Defined.

Lemma normalize_empty_iff_witness :
  isspace ascii_data 32 = true /\ isspace ascii_data 10 = true /\
  (_normalize_text ascii_data (py "  " ++ nl ++ py " ") = [] <->
   words ascii_data (dehyphenate ascii_data (py "  " ++ nl ++ py " ")) = []).
Proof.
  split; [reflexivity | split; [reflexivity|]].
  exact (normalize_empty_iff ascii_data eq_refl eq_refl
           (py "  " ++ nl ++ py " ")).
Defined.

End TextMore.

(** ** More on the pipeline *)

Module ScraperMore.
Import Regex RegexFacts Text TextFacts RegexRuns TextMore Crawler Scraper.

(** [re.sub] of a one-character class by one character maps the text
    character by character. *)
Lemma re_sub_class (p : N -> bool) (r : N) (s : pystr) :
  re_sub (Chr p) (fun _ => [r]) s = map (fun c => if p c then r else c) s.
Proof.
  unfold re_sub. induction s as [|c s IH]; [reflexivity|].
  cbn [sub_from map]. rewrite first_match_hd. cbn [rmatch].
  destruct (p c).
  - cbn [hd_error fst snd].
    replace (length (c :: s) - length s)%nat with 1%nat
      by (cbn [length]; lia).
    rewrite IH. reflexivity.
  - cbn [hd_error]. rewrite IH. reflexivity.
Qed.

Section Facts.

Variable U : unicode_data.
Variable max_depth : Z.
Variable num_pdfs : Z.
Variable workers : Z.
Variable pdfs_of : url -> list url.
Variable links_of : url -> list url.
Variable cwd : path.
Variable netloc : pystr -> outcome pystr.
Variable download : url -> option bytes.
Variable pdf_pages : bytes -> option (list pystr).
Variable as_completed : list url -> list url.

Local Abbreviation scrape_website :=
  (scrape_website U max_depth num_pdfs workers pdfs_of links_of cwd netloc
                  download pdf_pages as_completed).
Local Abbreviation scrape_each :=
  (scrape_each U max_depth num_pdfs workers pdfs_of links_of cwd netloc
               download pdf_pages as_completed).
Local Abbreviation scrape_multiple_websites :=
  (scrape_multiple_websites U max_depth num_pdfs workers pdfs_of links_of cwd
                            netloc download pdf_pages as_completed).
Local Abbreviation discovered :=
  (_discover_pdf_links max_depth num_pdfs pdfs_of links_of).
Local Abbreviation has_pdfs := (has_pdfs max_depth num_pdfs pdfs_of links_of).
Local Abbreviation output_dir := (_create_output_directory U cwd netloc).
Local Abbreviation save_text := (save_text U download pdf_pages).
Local Abbreviation extract := (_extract_text_from_pdf U pdf_pages).
Local Abbreviation pool_error :=
  (py "ValueError: max_workers must be greater than 0").

(** *** The name of the output directory *)

(** X16.  The folder name of a website is its domain, the netloc that
    [urlparse] returns without "www.", character by character, where
    every character that is neither a word character nor a hyphen has
    become an underscore: the name has the length of the domain and holds
    word characters and hyphens only.  When [urlparse] raises, its
    exception leaves [_get_website_folder_name]. *)
Theorem folder_name_safe (url : pystr) :
  match netloc url with
  | Raised exception =>
    _get_website_folder_name U netloc url = Raised exception
  | Returned parsed_netloc =>
    let domain := replace (py "www.") [] parsed_netloc in
    exists name,
      _get_website_folder_name U netloc url = Returned name /\
      name = map (sanitize U) domain /\
      length name = length domain /\
      Forall (fun c => word_char U c = true \/ c = 45%N) name
  end.
Proof.
  unfold _get_website_folder_name.
  destruct (netloc url) as [parsed_netloc | exception]; [| reflexivity].
  cbv zeta. set (domain := replace (py "www.") [] parsed_netloc).
  exists (map (sanitize U) domain).
  split; [| split; [reflexivity | split; [apply length_map|]]].
  - f_equal. unfold unsafe_char.
    rewrite re_sub_class. apply map_ext. intros c. unfold sanitize.
    destruct (word_char U c || N.eqb c 45 || N.eqb c 95); reflexivity.
  - apply Forall_forall. intros c Hin. apply in_map_iff in Hin.
    destruct Hin as (d & <- & _). unfold sanitize.
    destruct (word_char U d) eqn:W; [left; exact W|].
    destruct (N.eqb d 45) eqn:H; [right; apply N.eqb_eq; exact H|].
    simpl. destruct (N.eqb d 95) eqn:S.
    + apply N.eqb_eq in S. subst d. left. unfold word_char.
      apply orb_true_r.
    + left. unfold word_char. apply orb_true_r.
Qed.

(** [_create_output_directory] either raises the exception of [urlparse],
    having done nothing, or makes the directory that it returns. *)
Lemma output_dir_cases (website_url : pystr) :
  (exists exception, netloc website_url = Raised exception /\
     output_dir website_url = (Raised exception, [])) \/
  (exists parsed_netloc dir, netloc website_url = Returned parsed_netloc /\
     output_dir website_url = (Returned dir, [Mkdir dir])).
Proof.
  unfold _create_output_directory, _get_website_folder_name.
  destruct (netloc website_url) as [parsed_netloc | exception].
  - right. eexists. eexists. split; reflexivity.
  - left. eexists. split; reflexivity.
Qed.

(** *** The files that are written *)

Local Abbreviation written dir :=
  (fun kt : nat * pystr => WriteText (text_file dir (fst kt)) (snd kt)).

Lemma save_text_cases (dir : path) (fs : list fs_event) (iu : nat * url) :
  save_text dir fs iu = fs \/
  exists text, text <> [] /\
    save_text dir fs iu = fs ++ [WriteText (text_file dir (fst iu + 1)) text].
Proof.
  unfold Scraper.save_text.
  destruct (is_empty (_download_pdf download (snd iu))); [left; reflexivity|].
  destruct (extract (_download_pdf download (snd iu))) as [|c text] eqn:E;
    [left; reflexivity|].
  right. exists (c :: text). split; [discriminate | reflexivity].
Qed.

Lemma save_texts (dir : path) (urls : list url) (a : nat)
  (fs : list fs_event) :
  exists kts,
    fold_left (save_text dir) (combine (seq a (length urls)) urls) fs
    = fs ++ map (written dir) kts /\
    StronglySorted lt (map fst kts) /\
    Forall (fun kt => (a < fst kt <= a + length urls)%nat /\ snd kt <> []) kts.
Proof.
  revert a fs. induction urls as [|u urls IH]; intros a fs.
  - exists []. simpl. rewrite app_nil_r. repeat constructor.
  - cbn [length seq combine fold_left].
    destruct (IH (S a) (save_text dir fs (a, u))) as (kts & Hf & Hs & Hall).
    assert (Hall' : Forall (fun kt => (a < fst kt <= a + S (length urls))%nat
                                      /\ snd kt <> []) kts).
    { eapply Forall_impl; [| exact Hall]. intros kt [Hk Ht]. split; [lia | exact Ht]. }
    destruct (save_text_cases dir fs (a, u)) as [E | (text & Ht & E)].
    + exists kts. rewrite Hf, E. auto.
    + exists ((a + 1, text)%nat :: kts). rewrite Hf, E, <- app_assoc.
      split; [reflexivity | split].
      * cbn [map fst]. constructor; [exact Hs|].
        apply Forall_forall. intros k Hk. apply in_map_iff in Hk.
        destruct Hk as (kt & Ek & Hin). subst k. rewrite Forall_forall in Hall.
        destruct kt as [k' t']. destruct (Hall _ Hin) as [Hk' _].
        cbn [fst] in *. lia.
      * constructor; [| exact Hall']. cbn [fst snd]. split; [lia | exact Ht].
Qed.


(** *** Several websites *)

Local Abbreviation parsed :=
  (fun website : pystr => exists parsed_netloc,
     netloc website = Returned parsed_netloc).

Lemma scrape_website_parsed (website_url : pystr) :
  parsed website_url ->
  exists dir, fst (output_dir website_url) = Returned dir /\
    fst (scrape_website website_url)
    = if has_pdfs website_url
      then (if workers <=? 0 then Raised pool_error else Returned (Some dir))
      else Returned None.
Proof.
  intros (parsed_netloc & Hp).
  destruct (output_dir_cases website_url)
    as [(exception & Hn & _) | (nl & dir & _ & Ho)]; [congruence|].
  exists dir. unfold Scraper.scrape_website, Scraper.has_pdfs.
  rewrite Ho. split; [reflexivity|].
  destruct (discovered website_url); [reflexivity|].
  destruct (workers <=? 0); reflexivity.
Qed.

Lemma scrape_website_unparsed (website_url exception : pystr) :
  netloc website_url = Raised exception ->
  scrape_website website_url = (Raised exception, []).
Proof.
  intros H. unfold Scraper.scrape_website, _create_output_directory,
    _get_website_folder_name.
  rewrite H. reflexivity.
Qed.

Lemma scrape_each_returns (websites : list pystr) (results : list path)
  (fs : list fs_event) :
  0 < workers -> Forall parsed websites ->
  exists dirs,
    fst (scrape_each websites results fs) = Returned (results ++ dirs) /\
    Forall2 (fun website dir => fst (output_dir website) = Returned dir)
            (filter has_pdfs websites) dirs.
Proof.
  intros Hw Hall. revert results fs.
  induction Hall as [|w ws Hp _ IH]; intros results fs.
  - exists []. simpl. rewrite app_nil_r. split; constructor.
  - cbn [Scraper.scrape_each filter].
    destruct (scrape_website_parsed w Hp) as (dir & Hdir & R).
    replace (workers <=? 0) with false in R by lia.
    destruct (scrape_website w) as [[result | e] fs'] eqn:E; cbn [fst] in R.
    + destruct (has_pdfs w).
      * injection R as ->.
        destruct (IH (results ++ [dir]) (fs ++ fs')) as (dirs & Hr & Hd).
        exists (dir :: dirs). rewrite Hr, <- app_assoc.
        split; [reflexivity | constructor; assumption].
      * injection R as ->.
        destruct (IH results (fs ++ fs')) as (dirs & Hr & Hd).
        exists dirs. split; assumption.
    + destruct (has_pdfs w); discriminate.
Qed.


Lemma scrape_each_raises (websites : list pystr) (results : list path)
  (fs : list fs_event) :
  workers <= 0 -> Forall parsed websites ->
  fst (scrape_each websites results fs)
  = if existsb has_pdfs websites then Raised pool_error
    else Returned results.
Proof.
  intros Hw Hall. revert results fs.
  induction Hall as [|w ws Hp _ IH]; intros results fs; [reflexivity|].
  cbn [Scraper.scrape_each existsb].
  destruct (scrape_website_parsed w Hp) as (dir & _ & R).
  replace (workers <=? 0) with true in R by lia.
  destruct (scrape_website w) as [[result | e] fs'] eqn:E; cbn [fst] in R;
    destruct (has_pdfs w); cbn [orb]; try discriminate.
  - injection R as ->. apply IH.
  - injection R as ->. reflexivity.
Qed.


Lemma scrape_each_aborts (good rest : list pystr) (bad exception : pystr)
  (results : list path) (fs : list fs_event) :
  Forall (fun website => exists result,
            fst (scrape_website website) = Returned result) good ->
  netloc bad = Raised exception ->
  scrape_each (good ++ bad :: rest) results fs
  = (Raised exception,
     fs ++ flat_map (fun website => snd (scrape_website website)) good).
Proof.
  intros Hgood Hbad. revert results fs.
  induction Hgood as [|w ws (result & Hr) _ IH]; intros results fs.
  - cbn [app Scraper.scrape_each flat_map].
    rewrite (scrape_website_unparsed bad exception Hbad). reflexivity.
  - cbn [app Scraper.scrape_each flat_map].
    destruct (scrape_website w) as [[r | e] fs'] eqn:E; cbn [fst snd] in *;
      [| discriminate].
    rewrite IH, <- app_assoc. reflexivity.
Qed.

(** X21.  A website that [urlparse] rejects ends the whole batch: when
    the websites before it were scraped without exception,
    [scrape_multiple_websites] raises the exception of [urlparse] and
    returns none of the directories collected so far; the file system
    holds what the earlier websites left, nothing is made for the
    rejected one, and the websites after it are not scraped. *)
Theorem scrape_multiple_websites_invalid_url (good rest : list pystr)
  (bad exception : pystr) :
  Forall (fun website => exists result,
            fst (scrape_website website) = Returned result) good ->
  netloc bad = Raised exception ->
  scrape_multiple_websites (good ++ bad :: rest)
  = (Raised exception,
     flat_map (fun website => snd (scrape_website website)) good).
Proof.
  intros Hgood Hbad. unfold Scraper.scrape_multiple_websites.
  apply (scrape_each_aborts good rest bad exception [] [] Hgood Hbad).
Qed.

(** *** The extracted text *)

(** X20.  Provided the space and the line feed are white space, the words
    of the text that [_extract_text_from_pdf] returns for a document that
    PyMuPDF can read are the words of its page texts, joined by line
    feeds, then filtered and de-hyphenated: normalisation loses none. *)
Theorem extracted_words (content : bytes) (pages : list pystr) :
  isspace U 32 = true -> isspace U 10 = true ->
  content <> [] -> pdf_pages content = Some pages ->
  words U (extract content)
  = words U (dehyphenate U
               (_filter_content U
                  (join [10%N] (filter (fun t => negb (is_empty t)) pages)))).
Proof.
  intros Hsp Hnl Hc Hp. unfold _extract_text_from_pdf.
  destruct content as [|b content]; [congruence|]. cbn [is_empty].
  rewrite Hp.
  destruct (join [10%N] (filter (fun t => negb (is_empty t)) pages))
    as [|c raw]; [reflexivity|].
  cbn [is_empty]. apply normalize_words; assumption.
Qed.

End Facts.

(** *** On the example site *)

Example demo_scrape_many_result :
  demo_scrape_many 4 [plain_site; site] =
  (Returned [[py "home"; py "scraped_content"; py "n_in"]],
   [Mkdir [py "home"; py "scraped_content"; py "none_org"];
    Mkdir [py "home"; py "scraped_content"; py "n_in"];
    WriteText [py "home"; py "scraped_content"; py "n_in";
               py "extracted_text_1.txt"]
              (py "Big crowds were expected at the market today.");
    WriteText [py "home"; py "scraped_content"; py "n_in";
               py "extracted_text_2.txt"]
              (py "Big crowds were expected at the market today.");
    WriteText [py "home"; py "scraped_content"; py "n_in";
               py "extracted_text_3.txt"]
              (py "Big crowds were expected at the market today.")]).
Proof. vm_compute. reflexivity. Qed.

Example demo_scrape_many_invalid :
  demo_scrape_many 4 [plain_site; bad_url; site] =
  (Raised (py "ValueError: Invalid IPv6 URL"),
   [Mkdir [py "home"; py "scraped_content"; py "none_org"]]).
Proof. vm_compute. reflexivity. Qed.

Lemma demo_sites_parsed :
  Forall (fun website => exists parsed_netloc,
            demo_netloc website = Returned parsed_netloc) [plain_site; site].
Proof.
  constructor; [exists (py "www.none.org"); reflexivity|].
  constructor; [exists (py "n.in"); reflexivity | constructor].
Defined.



Lemma demo_site_scraped :
  Forall (fun website => exists result,
            fst (scrape_website ascii_data 1 5 4 demo_pdfs demo_links
                   [py "home"] demo_netloc (fun _ => Some [37%N])
                   (fun _ => Some [demo_page]) (fun l => l) website)
            = Returned result) [site].
Proof.
  constructor; [| constructor].
  exists (Some [py "home"; py "scraped_content"; py "n_in"]).
  vm_compute. reflexivity.
Defined.

Lemma scrape_multiple_websites_invalid_url_witness :
  Forall (fun website => exists result,
            fst (scrape_website ascii_data 1 5 4 demo_pdfs demo_links
                   [py "home"] demo_netloc (fun _ => Some [37%N])
                   (fun _ => Some [demo_page]) (fun l => l) website)
            = Returned result) [site] /\
  demo_netloc bad_url = Raised (py "ValueError: Invalid IPv6 URL") /\
  demo_scrape_many 4 ([site] ++ bad_url :: [plain_site])
  = (Raised (py "ValueError: Invalid IPv6 URL"),
     flat_map (fun website =>
                 snd (scrape_website ascii_data 1 5 4 demo_pdfs demo_links
                        [py "home"] demo_netloc (fun _ => Some [37%N])
                        (fun _ => Some [demo_page]) (fun l => l) website))
              [site]).
Proof.
  assert (H : demo_netloc bad_url = Raised (py "ValueError: Invalid IPv6 URL"))
    by reflexivity.
  split; [exact demo_site_scraped | split; [exact H|]].
  exact (scrape_multiple_websites_invalid_url ascii_data 1 5 4 demo_pdfs
           demo_links [py "home"] demo_netloc (fun _ => Some [37%N])
           (fun _ => Some [demo_page]) (fun l => l)
           [site] [plain_site] bad_url (py "ValueError: Invalid IPv6 URL")
           demo_site_scraped H).
Defined.

Lemma extracted_words_witness :
  isspace ascii_data 32 = true /\ isspace ascii_data 10 = true /\
  [37%N] <> [] /\
  (fun _ : bytes => Some [demo_page]) [37%N] = Some [demo_page] /\
  words ascii_data
        (_extract_text_from_pdf ascii_data (fun _ => Some [demo_page]) [37%N])
  = words ascii_data
      (dehyphenate ascii_data
         (_filter_content ascii_data
            (join [10%N] (filter (fun t => negb (is_empty t)) [demo_page])))).
Proof.
  assert (H : [37%N] <> []) by discriminate.
  split; [reflexivity | split; [reflexivity | split; [exact H | split;
    [reflexivity|]]]].
  exact (extracted_words ascii_data (fun _ => Some [demo_page]) [37%N]
           [demo_page] eq_refl eq_refl H eq_refl).
Defined.

End ScraperMore.
